(** * Contextual translator: segmentation and translation loop

    A shallow embedding of [translation_01.py]: the text splitter
    [split_text_into_chunks], the per-segment service call
    [translate_chunk], and the translation loop of [main] (the part that
    runs once the "Traduire" button has been pressed), followed by the
    properties the specification states about them. *)

From Stdlib Require Import String Ascii DecimalString.
From Stdlib Require Import ZArith NArith List Bool Lia.
From Stdlib Require Import Floats.SpecFloat.
From Stdlib Require Import Sorted.
Import ListNotations.

Local Open Scope Z_scope.

(* ================================================================== *)
(** ** Python strings *)
(* ================================================================== *)

(** A Python [str] is a sequence of Unicode code points. *)
Definition char : Type := N.
Definition str : Type := list char.

(** [len(s)], as a Python integer. *)
Definition len (s : str) : Z := Z.of_nat (List.length s).

(** A literal written with ASCII characters only. *)
Definition lit (s : string) : str := List.map N_of_ascii (list_ascii_of_string s).

Definition chr_dot : char := 46%N.
Definition chr_bang : char := 33%N.
Definition chr_qmark : char := 63%N.
Definition chr_space : char := 32%N.

(** A slice bound as CPython normalises it ([PySlice_AdjustIndices] with
    step 1): a negative bound counts from the end, and the result is
    clamped to [0 .. n]. *)
Definition clamp (n i : Z) : Z :=
  if i <? 0 then Z.max 0 (i + n) else Z.min i n.

(** [s[lo:hi]] *)
Definition slice (s : str) (lo hi : Z) : str :=
  let lo' := clamp (len s) lo in
  let hi' := clamp (len s) hi in
  firstn (Z.to_nat (hi' - lo')) (skipn (Z.to_nat lo') s).

(** [s[lo:]] *)
Definition slice_from (s : str) (lo : Z) : str :=
  skipn (Z.to_nat (clamp (len s) lo)) s.

(** [s.rfind(c)] for a one-character [c]: the highest index holding [c],
    or [-1].  The scan runs left to right with the index [i] of the head
    and the best index seen so far. *)
Fixpoint rfind_from (s : str) (c : char) (i best : Z) : Z :=
  match s with
  | [] => best
  | x :: s' => rfind_from s' c (i + 1) (if N.eqb x c then i else best)
  end.

Definition rfind (s : str) (c : char) : Z := rfind_from s c 0 (-1).

(** [str.isspace] on one code point ([_PyUnicode_IsWhitespace]). *)
Definition is_space (c : char) : bool :=
  ((9 <=? c) && (c <=? 13) || (28 <=? c) && (c <=? 32)
   || (c =? 133) || (c =? 160) || (c =? 5760)
   || (8192 <=? c) && (c <=? 8202)
   || (c =? 8232) || (c =? 8233) || (c =? 8239) || (c =? 8287)
   || (c =? 12288))%N.

Fixpoint lstrip (s : str) : str :=
  match s with
  | [] => []
  | x :: s' => if is_space x then lstrip s' else s
  end.

Definition rstrip (s : str) : str := rev (lstrip (rev s)).

(** [s.strip()] *)
Definition strip (s : str) : str := rstrip (lstrip s).

(** Truth value of a string: non-empty. *)
Definition truthy (s : str) : bool :=
  match s with [] => false | _ :: _ => true end.

(** [sep.join(parts)] *)
Fixpoint join (sep : str) (parts : list str) : str :=
  match parts with
  | [] => []
  | [p] => p
  | p :: rest => p ++ sep ++ join sep rest
  end.

(* ================================================================== *)
(** ** The two float thresholds *)
(* ================================================================== *)

(** [chunk_size * 0.7] and [chunk_size * 0.5] are binary64 products: the
    integer is first converted to a double, the product is rounded to
    nearest, ties to even, and the comparison of the integer index with
    the resulting double is exact.  All the values involved are integer
    multiples of [2^-53], so a double [x] is kept as the integer
    [x * 2^53].

    The exponent range is not modelled.  The comparisons are reached only
    when [chunk_size < len(text)], and a [str] has fewer than [2^63]
    characters, far inside the range of a double. *)

(** Round a non-negative integer to 53 significant bits, to nearest, ties
    to even. *)
Definition round53 (n : Z) : Z :=
  let k := Z.log2 n in
  if k <? 53 then n
  else
    let s := k - 52 in
    let q := n / 2 ^ s in
    let r := n mod 2 ^ s in
    let half := 2 ^ (s - 1) in
    let q' := if (half <? r) || ((r =? half) && Z.odd q) then q + 1 else q in
    q' * 2 ^ s.

(** [float(n)]; the value is an integer. *)
Definition float_of_int (n : Z) : Z := Z.sgn n * round53 (Z.abs n).

(** The double nearest [0.7] is [0x1.6666666666666p-1]; [0.5] is exact. *)
Definition c07 : Z := 6305039478318694.
Definition c05 : Z := 2 ^ 52.

(** [n * f] for the double [f = m / 2^53]: the result, times [2^53]. *)
Definition int_mul_float (n m : Z) : Z :=
  let p := float_of_int n * m in
  Z.sgn p * round53 (Z.abs p).

(** [i > x] for an integer [i] and the double [x = t / 2^53]. *)
Definition int_gt_float (i t : Z) : bool := t <? i * 2 ^ 53.

(* ================================================================== *)
(** ** split_text_into_chunks *)
(* ================================================================== *)

(** The loop may not terminate, so it is run for a number of iterations.
    [Returned chunks] is the [return]; [Running start chunks] is the state
    at the loop head when the iterations are used up. *)
Inductive outcome : Type :=
| Returned (chunks : list str)
| Running (start : Z) (chunks : list str).

(** [max(chunk.rfind('.'), chunk.rfind('!'), chunk.rfind('?'))] *)
Definition last_sentence (chunk : str) : Z :=
  Z.max (Z.max (rfind chunk chr_dot) (rfind chunk chr_bang)) (rfind chunk chr_qmark).

(** The value of [end] when the chunk is appended, for a window that is
    not the last one. *)
Definition cut_end (text : str) (chunk_size start : Z) : Z :=
  let end_ := start + chunk_size in
  let chunk := slice text start end_ in
  let last_sentence := last_sentence chunk in
  if int_gt_float last_sentence (int_mul_float chunk_size c07) then
    start + last_sentence + 1
  else
    let last_space := rfind chunk chr_space in
    if int_gt_float last_space (int_mul_float chunk_size c05) then
      start + last_space
    else end_.

(** The [while start < len(text)] loop. *)
Fixpoint split_loop (fuel : nat) (text : str) (chunk_size overlap : Z)
    (start : Z) (chunks : list str) : outcome :=
  match fuel with
  | O => Running start chunks
  | S fuel' =>
      if start <? len text then
        if len text <=? start + chunk_size then
          Returned (chunks ++ [slice_from text start])
        else
          let end_ := cut_end text chunk_size start in
          split_loop fuel' text chunk_size overlap (end_ - overlap)
            (chunks ++ [slice text start end_])
      else Returned chunks
  end.

Definition split_text_into_chunks (fuel : nat) (text : str)
    (chunk_size overlap : Z) : outcome :=
  if len text <=? chunk_size then Returned [text]
  else split_loop fuel text chunk_size overlap 0 [].

(** The call returns [chunks]. *)
Definition returns (text : str) (chunk_size overlap : Z) (chunks : list str) : Prop :=
  exists fuel, split_text_into_chunks fuel text chunk_size overlap = Returned chunks.

(** The call never returns. *)
Definition diverges (text : str) (chunk_size overlap : Z) : Prop :=
  forall fuel, exists start chunks,
    split_text_into_chunks fuel text chunk_size overlap = Running start chunks.

(** The chunks appended so far. *)
Definition emitted (o : outcome) : list str :=
  match o with Returned l => l | Running _ l => l end.

(* ================================================================== *)
(** ** The translation service and the page *)
(* ================================================================== *)

(** Non-ASCII letters of the messages. *)
Definition chr_E_acute : char := 201%N.
Definition chr_a_grave : char := 224%N.
Definition chr_e_circ : char := 234%N.

(** [str(n)] for a non-negative integer. *)
Definition str_of_nat (n : nat) : str :=
  lit (DecimalString.NilZero.string_of_uint (Nat.to_uint n)).

Definition MODEL_NAME : str := lit "c4ai-aya-expanse-32b".
Definition MODEL_CONFIG_name : str := lit "Aya Expanse 32B".
Definition MODEL_CONFIG_max_output_tokens : Z := 4096.

Section Service.

(** The temperature is a float that is only passed through. *)
Variable temp : Type.

Record chat_request : Type := {
  req_model : str;
  req_messages : list (str * str);   (* role, content *)
  req_temperature : temp;
  req_max_tokens : Z
}.

(** What [client.chat] does: it returns a response, seen here as its
    [message.content] items (an item with a [text] attribute is [Some]),
    or raises an exception [e], seen as [str(e)]. *)
Inductive chat_result : Type :=
| Response (content : list (option str))
| Raised (e : str).

(** The service is outside the program: any state type, any behaviour. *)
Variable client : Type.
Variable chat : client -> chat_request -> chat_result * client.

(** What the page shows and does, in order. *)
Inductive event : Type :=
| StatusText (msg : str)          (* status_text.text(msg) *)
| ChatCall (req : chat_request)   (* client.chat(...) *)
| StError (msg : str)             (* st.error(msg) *)
| Progress (num den : nat)        (* progress_bar.progress(num / den) *)
| Sleep.                          (* time.sleep(0.1) *)

Record world : Type := {
  svc : client;
  ui : list event
}.

(** State passing over [world]. *)
Definition M (A : Type) : Type := world -> A * world.

Definition ret {A} (a : A) : M A := fun w => (a, w).

Definition bind {A B} (m : M A) (k : A -> M B) : M B :=
  fun w => let (a, w') := m w in k a w'.

Definition emit (e : event) : M unit :=
  fun w => (tt, {| svc := svc w; ui := ui w ++ [e] |}).

Definition client_chat (req : chat_request) : M chat_result :=
  fun w =>
    let (r, c') := chat (svc w) req in
    (r, {| svc := c'; ui := ui w ++ [ChatCall req] |}).

Local Notation "x <- c1 ;; c2" := (bind c1 (fun x => c2))
  (at level 61, c1 at next level, right associativity).
Local Notation "c1 ;; c2" := (bind c1 (fun _ => c2))
  (at level 61, right associativity).

(** ["".join(item.text for item in content if hasattr(item, 'text'))] *)
Definition content_text (content : list (option str)) : str :=
  concat (flat_map (fun item => match item with Some t => [t] | None => [] end) content).

(** [f"[Échec de la traduction: {str(e)}]"] *)
Definition failure_marker (e : str) : str :=
  lit "[" ++ [chr_E_acute] ++ lit "chec de la traduction: " ++ e ++ lit "]".

(** [f"Échec de la traduction pour le segment: {str(e)}"] *)
Definition failure_message (e : str) : str :=
  [chr_E_acute] ++ lit "chec de la traduction pour le segment: " ++ e.

Definition system_prompt (context source_lang target_lang : str) : str :=
  strip context ++ lit " Traduisez le texte " ++ source_lang
    ++ lit " suivant en " ++ target_lang ++ lit ":".

Definition request (text target_lang source_lang : str) (temperature : temp)
    (context : str) : chat_request :=
  {| req_model := MODEL_NAME;
     req_messages := [ (lit "system", system_prompt context source_lang target_lang);
                       (lit "user", text) ];
     req_temperature := temperature;
     req_max_tokens := MODEL_CONFIG_max_output_tokens |}.

(** The string [translate_chunk] returns for a result of the call. *)
Definition result_text (r : chat_result) : str :=
  match r with
  | Response content => content_text content
  | Raised e => failure_marker e
  end.

Definition translate_chunk (text target_lang source_lang : str)
    (temperature : temp) (context : str) : M str :=
  r <- client_chat (request text target_lang source_lang temperature context) ;;
  match r with
  | Response content => ret (content_text content)
  | Raised e =>
      emit (StError (failure_message e)) ;;
      ret (failure_marker e)
  end.

(** [f"Traduction du segment {i+1} sur {len(chunks)} avec {MODEL_CONFIG['name']}..."] *)
Definition status_message (i total : nat) : str :=
  lit "Traduction du segment " ++ str_of_nat (i + 1) ++ lit " sur "
    ++ str_of_nat total ++ lit " avec " ++ MODEL_CONFIG_name ++ lit "...".

Section Loop.

Variables (target_lang source_lang : str) (temperature : temp) (context_text : str).

(** The body of [for i, chunk in enumerate(chunks)], with [total] for
    [len(chunks)].  The argument of [progress_bar.progress] is the
    quotient [(i + 1) / total]; it is kept as numerator and denominator
    (the float is the correctly rounded quotient, and is [1.0] exactly
    when the two are equal). *)
Definition loop_body (total i : nat) (chunk : str) (translated_chunks : list str)
    : M (list str) :=
  if truthy (strip chunk) then
    emit (StatusText (status_message i total)) ;;
    translated_chunk <- translate_chunk chunk target_lang source_lang temperature context_text ;;
    emit (Progress (i + 1) total) ;;
    emit Sleep ;;
    ret (translated_chunks ++ [translated_chunk])
  else ret translated_chunks.

Fixpoint translate_loop (total i : nat) (chunks : list str)
    (translated_chunks : list str) : M (list str) :=
  match chunks with
  | [] => ret translated_chunks
  | chunk :: rest =>
      translated_chunks' <- loop_body total i chunk translated_chunks ;;
      translate_loop total (S i) rest translated_chunks'
  end.

(** The loop over a list of chunks and the join: what ends up in
    [st.session_state.translation] and [.chunks_processed]. *)
Definition translate_chunks (chunks : list str) : M (str * nat) :=
  translated_chunks <- translate_loop (List.length chunks) 0 chunks [] ;;
  ret (join (lit " ") translated_chunks, List.length translated_chunks).

End Loop.

(** What pressing "Traduire" leads to. *)
Inductive run : Type :=
| Warning (msg : str)                                    (* st.warning(msg) *)
| Translated (full_translation : str) (chunks_processed : nat)
| NoReturn.                                              (* the splitter is still running *)

Definition warn_no_text : str :=
  lit "Veuillez entrer du texte " ++ [chr_a_grave] ++ lit " traduire".
Definition warn_no_context : str :=
  lit "Veuillez fournir un contexte de traduction".
Definition warn_same_language : str :=
  lit "Les langues source et cible ne peuvent pas " ++ [chr_e_circ] ++ lit "tre identiques".

Definition str_eqb (a b : str) : bool :=
  if list_eq_dec N.eq_dec a b then true else false.

(** The [if translate_clicked:] block of [main].  The timing and the
    widgets created and cleared around the loop are left out. *)
Definition translate_clicked (fuel : nat) (input_text context_text : str)
    (source_lang target_lang : str) (chunk_size chunk_overlap : Z)
    (temperature : temp) : M run :=
  if negb (truthy (strip input_text)) then ret (Warning warn_no_text)
  else if negb (truthy (strip context_text)) then ret (Warning warn_no_context)
  else if str_eqb source_lang target_lang then ret (Warning warn_same_language)
  else
    match split_text_into_chunks fuel input_text chunk_size chunk_overlap with
    | Running _ _ => ret NoReturn
    | Returned chunks =>
        r <- translate_chunks target_lang source_lang temperature context_text chunks ;;
        ret (Translated (fst r) (snd r))
    end.

(** *** Reading the event log *)

Definition chat_calls (l : list event) : list chat_request :=
  flat_map (fun e => match e with ChatCall r => [r] | _ => [] end) l.

Definition progress_reports (l : list event) : list (nat * nat) :=
  flat_map (fun e => match e with Progress n d => [(n, d)] | _ => [] end) l.

Definition errors_shown (l : list event) : list str :=
  flat_map (fun e => match e with StError m => [m] | _ => [] end) l.

(** The text of the user message of a request. *)
Definition user_text (r : chat_request) : str :=
  concat (flat_map (fun m => if str_eqb (fst m) (lit "user") then [snd m] else [])
            (req_messages r)).

(** The results of sending a list of requests one after the other. *)
Fixpoint chat_trace (c : client) (reqs : list chat_request) : list chat_result :=
  match reqs with
  | [] => []
  | r :: rest => let (o, c') := chat c r in o :: chat_trace c' rest
  end.

End Service.

(* ================================================================== *)
(** ** Notions used in the statements *)
(* ================================================================== *)

Arguments Build_chat_request {temp}.
Arguments req_messages {temp}.
Arguments ChatCall {temp}.
Arguments StatusText {temp}.
Arguments StError {temp}.
Arguments Progress {temp}.
Arguments Sleep {temp}.
Arguments svc {temp client}.
Arguments ui {temp client}.
Arguments request {temp}.
Arguments translate_chunk {temp client}.
Arguments loop_body {temp client}.
Arguments translate_loop {temp client}.
Arguments translate_chunks {temp client}.
Arguments translate_clicked {temp client}.
Arguments chat_calls {temp}.
Arguments progress_reports {temp}.
Arguments errors_shown {temp}.
Arguments user_text {temp}.
Arguments chat_trace {temp client}.

(** [if chunk.strip():] *)
Definition nonblank (chunk : str) : bool := truthy (strip chunk).

(** The indices, counted from [i], of the chunks that are not blank. *)
Fixpoint nonblank_indices (i : nat) (chunks : list str) : list nat :=
  match chunks with
  | [] => []
  | chunk :: rest =>
      if nonblank chunk then i :: nonblank_indices (S i) rest
      else nonblank_indices (S i) rest
  end.

(** What [st.error] shows for a result of the call. *)
Definition shown_error (r : chat_result) : list str :=
  match r with
  | Response _ => []
  | Raised e => [failure_message e]
  end.

(** The user texts sent to the service. *)
Definition submitted {temp : Type} (l : list (event temp)) : list str :=
  map user_text (chat_calls l).

(** Configurations for which every cut moves the window forward. *)
Definition advancing (chunk_size overlap : Z) : Prop :=
  0 < chunk_size /\ 0 <= overlap < chunk_size
  /\ 2 * overlap <= float_of_int chunk_size.

(** A chunk that is not longer than the window. *)
Definition fits (chunk_size : Z) (chunk : str) : Prop := len chunk <= chunk_size.

(** [chain text overlap start l]: [l] is a run of windows of [text], the
    first starting at [start], each one starting [overlap] characters
    before the end of the one before it and more than [overlap] long, the
    last one reaching the end of the text. *)
Inductive chain (text : str) (overlap : Z) : Z -> list str -> Prop :=
| chain_last (start : Z) :
    0 <= start -> start + overlap < len text ->
    chain text overlap start [slice_from text start]
| chain_cons (start end_ : Z) (l : list str) :
    0 <= start -> start + overlap < end_ -> end_ < len text ->
    chain text overlap (end_ - overlap) l ->
    chain text overlap start (slice text start end_ :: l).

(** The first chunk followed by every later chunk without its first
    [overlap] characters. *)
Definition reconstruct (overlap : Z) (chunks : list str) : str :=
  match chunks with
  | [] => []
  | first :: rest => first ++ concat (map (skipn (Z.to_nat overlap)) rest)
  end.

(** Each chunk after the first starts with the last [overlap] characters
    of the chunk before it. *)
Fixpoint overlapping (overlap : nat) (chunks : list str) : Prop :=
  match chunks with
  | c :: rest =>
      match rest with
      | c' :: _ =>
          skipn (List.length c - overlap) c = firstn overlap c'
          /\ overlapping overlap rest
      | [] => True
      end
  | [] => True
  end.



(** The same products with the binary64 operations of the standard
    library's specification of IEEE 754 ([prec = 53], [emax = 1024]). *)
Definition binary64_of_int (n : Z) : spec_float := binary_normalize 53 1024 n 0 false.

Definition binary64_of_ratio (m : Z) : spec_float := binary_normalize 53 1024 m (-53) false.

(** The value of a double, times [2^53], when that is an integer. *)
Definition times_2_53 (x : spec_float) : option Z :=
  match x with
  | S754_zero _ => Some 0
  | S754_finite s m e =>
      if 0 <=? e + 53 then Some ((if s then -1 else 1) * Z.pos m * 2 ^ (e + 53))
      else None
  | _ => None
  end.

Definition agrees_with_binary64 (m n : Z) : bool :=
  match times_2_53 (SFmul 53 1024 (binary64_of_int n) (binary64_of_ratio m)) with
  | Some t => t =? int_mul_float n m
  | None => false
  end.

(* ================================================================== *)
(** ** The rest of the page: client, sliders, estimate *)
(* ================================================================== *)

(** What [st.secrets["COHERE_API_KEY"]] does: it gives a value, or raises
    one of the two exceptions [init_cohere_client] catches. *)
Inductive secret_lookup : Type :=
| SecretValue (v : str)
| SecretKeyError
| SecretFileNotFound.

(** How [init_cohere_client] ends. *)
Inductive client_init : Type :=
| ClientV2 (api_key : str)     (* return cohere.ClientV2(api_key) *)
| Stopped (error : str).       (* st.error(error); st.stop() *)

Definition chr_e_acute : char := 233%N.

Definition missing_key_message : str :=
  lit "Cl" ++ [chr_e_acute]
    ++ lit " API Cohere introuvable. Veuillez configurer COHERE_API_KEY dans les secrets Streamlit ou les variables d'environnement.".

(** [init_cohere_client], given what the secrets lookup does and what
    [os.getenv('COHERE_API_KEY')] returns ([None] when the variable is not
    set).  The caching of the result by [st.cache_resource] is left out. *)
Definition init_cohere_client (secret : secret_lookup) (getenv : option str)
    : client_init :=
  let api_key :=
    match secret with
    | SecretValue v => Some v
    | SecretKeyError | SecretFileNotFound => getenv
    end in
  match api_key with
  | Some key => if truthy key then ClientV2 key else Stopped missing_key_message
  | None => Stopped missing_key_message
  end.

Definition MODEL_CONFIG_context_length : Z := 131072.
Definition MODEL_CONFIG_recommended_chunk_size : Z := 2000.

(** [a // b]; division by zero raises. *)
Definition floordiv (a b : Z) : option Z :=
  if b =? 0 then None else Some (a / b).

(** [min(3000, MODEL_CONFIG["context_length"] // 4)] *)
Definition max_chunk_size : Z := Z.min 3000 (MODEL_CONFIG_context_length / 4).

(** The values an integer [st.slider] can return: from [min_value] to
    [max_value], in steps of [step]. *)
Definition on_slider (min_value max_value step v : Z) : bool :=
  (min_value <=? v) && (v <=? max_value) && ((v - min_value) mod step =? 0).

Definition chunk_size_slider (v : Z) : bool :=
  on_slider 500 max_chunk_size 100 v.

Definition chunk_overlap_slider (chunk_size v : Z) : bool :=
  on_slider 0 (Z.min 300 (chunk_size / 4)) 10 v.

(** [max(1, (char_count + chunk_size - 1) // chunk_size)] with
    [char_count = len(input_text)]: the number of segments the page
    announces under the text area. *)
Definition estimated_chunks (input_text : str) (chunk_size : Z) : option Z :=
  let char_count := len input_text in
  match floordiv (char_count + chunk_size - 1) chunk_size with
  | Some q => Some (Z.max 1 q)
  | None => None
  end.

(** What [lstrip] leaves is empty or starts with a character that is not
    whitespace. *)
Definition clean_head (s : str) : Prop :=
  match s with [] => True | x :: _ => is_space x = false end.

(** The first [n] windows of width [chunk_size] taken every
    [chunk_size - overlap] characters from [start]. *)
Definition windows (text : str) (chunk_size overlap start : Z) (n : nat) : list str :=
  map (fun i => slice text (start + Z.of_nat i * (chunk_size - overlap))
                  (start + Z.of_nat i * (chunk_size - overlap) + chunk_size))
    (seq 0 n).

(** One of the three characters that end a sentence for the splitter. *)
Definition is_terminator (c : char) : bool :=
  N.eqb c chr_dot || N.eqb c chr_bang || N.eqb c chr_qmark.

(* ================================================================== *)
(** ** Sample inputs *)
(* ================================================================== *)

Definition hello : str := lit "Hello world. This is a test!".

(** Six letters, a space at index 6, seven letters. *)
Definition spaced : str := lit "aaaaaa aaaaaaa".


Definition alphabet : str := lit "abcdefghijkl".

(** A service for the examples: it numbers its calls from 0, the call
    numbered 1 raises, the others answer with the user text between
    brackets. *)
Definition sample_chat (n : nat) (r : chat_request unit) : chat_result * nat :=
  (if Nat.eqb n 1 then Raised (lit "timeout")
   else Response [Some (lit "<"); None; Some (user_text r); Some (lit ">")],
   S n).

Definition sample_world : world unit nat := {| svc := 0%nat; ui := [] |}.

Definition fr : str := lit "Francais".
Definition en : str := lit "Anglais".
Definition sample_context : str := lit " Soyez poli. ".

(* ================================================================== *)
(** ** Slices and searches *)
(* ================================================================== *)

Lemma len_nonneg (s : str) : 0 <= len s.
Proof. unfold len. lia. Qed.

Lemma len_app (a b : str) : len (a ++ b) = len a + len b.
Proof. unfold len. rewrite length_app. lia. Qed.

Lemma clamp_range (n i : Z) : 0 <= n -> 0 <= clamp n i <= n.
Proof. intros Hn. unfold clamp. destruct (Z.ltb_spec i 0); lia. Qed.

Lemma clamp_inside (n i : Z) : 0 <= i <= n -> clamp n i = i.
Proof. intros Hi. unfold clamp. destruct (Z.ltb_spec i 0); lia. Qed.

Lemma len_slice (s : str) (lo hi : Z) :
  len (slice s lo hi) = Z.max 0 (clamp (len s) hi - clamp (len s) lo).
Proof.
  unfold slice.
  pose proof (clamp_range (len s) lo (len_nonneg s)) as Hlo.
  pose proof (clamp_range (len s) hi (len_nonneg s)) as Hhi.
  unfold len in *. rewrite length_firstn, length_skipn. lia.
Qed.

Lemma len_slice_from (s : str) (lo : Z) :
  len (slice_from s lo) = len s - clamp (len s) lo.
Proof.
  unfold slice_from.
  pose proof (clamp_range (len s) lo (len_nonneg s)) as Hlo.
  unfold len in *. rewrite length_skipn. lia.
Qed.

Lemma slice_inside (s : str) (lo hi : Z) :
  0 <= lo <= hi -> hi <= len s ->
  slice s lo hi = firstn (Z.to_nat (hi - lo)) (skipn (Z.to_nat lo) s).
Proof.
  intros H1 H2. unfold slice. rewrite !clamp_inside by lia. reflexivity.
Qed.

Lemma slice_from_inside (s : str) (lo : Z) :
  0 <= lo <= len s -> slice_from s lo = skipn (Z.to_nat lo) s.
Proof. intros H. unfold slice_from. rewrite clamp_inside by lia. reflexivity. Qed.

(** A slice of width at most [w] has at most [w] characters, unless it
    starts at a non-negative index and stops at a negative one. *)
Lemma len_slice_width (s : str) (lo hi w : Z) :
  0 <= w -> hi <= lo + w -> lo < 0 \/ 0 <= hi ->
  len (slice s lo hi) <= w.
Proof.
  intros Hw Hhi Hsign. rewrite len_slice.
  pose proof (len_nonneg s) as Hn. unfold clamp.
  destruct (Z.ltb_spec hi 0), (Z.ltb_spec lo 0); lia.
Qed.

(** [rfind] stays inside the string. *)
Lemma rfind_from_range (s : str) (c : char) (i best : Z) :
  rfind_from s c i best = best \/ i <= rfind_from s c i best < i + len s.
Proof.
  revert i best. induction s as [|x s IH]; intros i best; simpl.
  - left. reflexivity.
  - unfold len. simpl length. rewrite Nat2Z.inj_succ.
    destruct (IH (i + 1) (if N.eqb x c then i else best)) as [E|E].
    + rewrite E. destruct (N.eqb x c); [right; lia | left; reflexivity].
    + right. unfold len in E. lia.
Qed.

Lemma rfind_range (s : str) (c : char) : -1 <= rfind s c < len s.
Proof.
  unfold rfind. pose proof (len_nonneg s).
  destruct (rfind_from_range s c 0 (-1)) as [E|E]; lia.
Qed.

Lemma last_sentence_range (chunk : str) : -1 <= last_sentence chunk < len chunk.
Proof.
  unfold last_sentence.
  pose proof (rfind_range chunk chr_dot).
  pose proof (rfind_range chunk chr_bang).
  pose proof (rfind_range chunk chr_qmark).
  lia.
Qed.

(** What [rfind] finds: the index holds [c] and no later index does; a
    result that is the initial [best] means [c] does not occur. *)
Lemma rfind_from_spec (s : str) (c : char) (i best : Z) :
  (rfind_from s c i best = best /\ ~ In c s)
  \/ (exists k : nat,
        rfind_from s c i best = i + Z.of_nat k
        /\ nth_error s k = Some c
        /\ forall j : nat, (k < j)%nat -> nth_error s j <> Some c).
Proof.
  revert i best. induction s as [|x s IH]; intros i best; simpl.
  - left. split; [reflexivity | intros []].
  - destruct (IH (i + 1) (if N.eqb x c then i else best))
      as [[E Hnot] | (k & E & Hk & Hlast)].
    + rewrite E. destruct (N.eqb_spec x c) as [Hx | Hx].
      * right. exists 0%nat. split; [lia|]. split; [simpl; congruence|].
        intros j Hj. destruct j as [|j]; [lia|]. simpl.
        intros Hc. apply Hnot. eapply nth_error_In; eauto.
      * left. split; [reflexivity|]. intros [Hc | Hc]; [congruence | tauto].
    + right. exists (S k). split; [lia|]. split; [exact Hk|].
      intros j Hj. destruct j as [|j]; [lia|]. simpl. apply Hlast. lia.
Qed.

Lemma rfind_found (s : str) (c : char) :
  0 <= rfind s c ->
  nth_error s (Z.to_nat (rfind s c)) = Some c
  /\ forall j : nat, (Z.to_nat (rfind s c) < j)%nat -> nth_error s j <> Some c.
Proof.
  unfold rfind. intros H.
  destruct (rfind_from_spec s c 0 (-1)) as [[E _] | (k & E & Hk & Hlast)].
  - lia.
  - rewrite E. simpl. rewrite Nat2Z.id. split; assumption.
Qed.

Lemma rfind_absent (s : str) (c : char) : ~ In c s -> rfind s c = -1.
Proof.
  unfold rfind. intros Hnot.
  destruct (rfind_from_spec s c 0 (-1)) as [[E _] | (k & E & Hk & Hlast)].
  - exact E.
  - exfalso. apply Hnot. eapply nth_error_In; eauto.
Qed.

(** The last index holding [c] is what [rfind] returns. *)
Lemma rfind_last (s : str) (c : char) (k : nat) :
  nth_error s k = Some c ->
  (forall j : nat, (k < j)%nat -> nth_error s j <> Some c) ->
  rfind s c = Z.of_nat k.
Proof.
  intros Hk Hlast. unfold rfind.
  destruct (rfind_from_spec s c 0 (-1)) as [[E Hnot] | (k' & E & Hk' & Hlast')].
  - exfalso. apply Hnot. eapply nth_error_In; eauto.
  - rewrite E. simpl.
    destruct (Nat.lt_trichotomy k k') as [Hlt | [Heq | Hgt]].
    + exfalso. exact (Hlast k' Hlt Hk').
    + subst. reflexivity.
    + exfalso. exact (Hlast' k Hgt Hk).
Qed.

(* ================================================================== *)
(** ** Rounding and the thresholds *)
(* ================================================================== *)

(** The pieces of a rounding step: for [n] with at least 54 bits,
    [n = q * 2^s + r] with [2^52 <= q < 2^53], [0 <= r < 2^s] and
    [2^s = 2 * half]. *)
Lemma round53_pieces (n : Z) :
  53 <= Z.log2 n ->
  let s := Z.log2 n - 52 in
  n = 2 ^ s * (n / 2 ^ s) + n mod 2 ^ s
  /\ 0 <= n mod 2 ^ s < 2 ^ s
  /\ 2 ^ s = 2 * 2 ^ (s - 1)
  /\ 0 < 2 ^ (s - 1)
  /\ 2 ^ 52 <= n / 2 ^ s < 2 ^ 53.
Proof.
  intros Hk s.
  assert (Hn : 0 < n).
  { destruct (Z.ltb_spec 0 n); [assumption|]. rewrite Z.log2_nonpos in Hk; lia. }
  assert (Hs : 1 <= s) by (unfold s; lia).
  assert (Hp : 0 < 2 ^ s) by (apply Z.pow_pos_nonneg; lia).
  destruct (Z.log2_spec n Hn) as [Hlo Hhi].
  replace (Z.succ (Z.log2 n)) with (53 + s) in Hhi by (unfold s; lia).
  replace (Z.log2 n) with (52 + s) in Hlo by (unfold s; lia).
  rewrite Z.pow_add_r in Hlo, Hhi by lia.
  split; [apply Z.div_mod; lia|].
  split; [apply Z.mod_pos_bound; lia|].
  split.
  { replace s with (1 + (s - 1)) at 1 by lia. rewrite Z.pow_add_r by lia. reflexivity. }
  split; [apply Z.pow_pos_nonneg; lia|].
  split.
  - apply Z.div_le_lower_bound; lia.
  - apply Z.div_lt_upper_bound; lia.
Qed.

Lemma round53_small (n : Z) : 0 <= n <= 2 ^ 53 -> round53 n = n.
Proof.
  intros Hn. unfold round53.
  destruct (Z.ltb_spec (Z.log2 n) 53) as [Hk | Hk]; [reflexivity|].
  assert (n = 2 ^ 53).
  { destruct (Z.eq_dec n (2 ^ 53)) as [E | E]; [exact E|].
    assert (Hlt : n < 2 ^ 53) by lia.
    destruct (Z.eq_dec n 0) as [E0 | E0]; [subst; simpl in Hk; lia|].
    apply Z.log2_lt_pow2 in Hlt; lia. }
  subst n. vm_compute. reflexivity.
Qed.

Lemma round53_lower (n : Z) :
  0 <= n -> (2 ^ 53 - 1) * n <= 2 ^ 53 * round53 n.
Proof.
  intros Hn. unfold round53.
  destruct (Z.ltb_spec (Z.log2 n) 53) as [Hk | Hk]; [lia|].
  destruct (round53_pieces n Hk) as (Hdm & Hr & Hhalf & Hh & Hq).
  cbv zeta in *.
  set (s := Z.log2 n - 52) in *.
  set (q := n / 2 ^ s) in *. set (r := n mod 2 ^ s) in *.
  set (h := 2 ^ (s - 1)) in *. set (P := 2 ^ s) in *.
  change (2 ^ 53) with 9007199254740992 in *.
  change (2 ^ 52) with 4503599627370496 in *.
  destruct ((h <? r) || ((r =? h) && Z.odd q)) eqn:Hc.
  - nia.
  - apply orb_false_iff in Hc. destruct Hc as [Hc _].
    apply Z.ltb_ge in Hc. nia.
Qed.

(** The result has at most 53 significant bits. *)
Lemma round53_form (n : Z) :
  0 <= n -> exists m e, 0 <= m <= 2 ^ 53 /\ 0 <= e /\ round53 n = m * 2 ^ e.
Proof.
  intros Hn. unfold round53.
  destruct (Z.ltb_spec (Z.log2 n) 53) as [Hk | Hk].
  - exists n, 0. split; [|split; [lia | rewrite Z.mul_1_r; reflexivity]].
    split; [lia|]. destruct (Z.eq_dec n 0) as [E|E]; [subst; lia|].
    apply Z.lt_le_incl. apply Z.log2_lt_pow2; lia.
  - destruct (round53_pieces n Hk) as (Hdm & Hr & Hhalf & Hh & Hq).
    cbv zeta in *.
    eexists _, (Z.log2 n - 52). split; [|split; [lia | reflexivity]].
    destruct (_ || _); lia.
Qed.

Lemma round53_exact (m e : Z) :
  0 <= m <= 2 ^ 53 -> 0 <= e -> round53 (m * 2 ^ e) = m * 2 ^ e.
Proof.
  intros Hm He.
  destruct (Z.eq_dec m 0) as [E | E]; [subst; reflexivity|].
  assert (Hpe : 0 < 2 ^ e) by (apply Z.pow_pos_nonneg; lia).
  unfold round53.
  destruct (Z.ltb_spec (Z.log2 (m * 2 ^ e)) 53) as [Hk | Hk]; [reflexivity|].
  destruct (round53_pieces _ Hk) as (Hdm & Hr & Hhalf & Hh & Hq).
  cbv zeta in *.
  rewrite Z.log2_mul_pow2 in * by lia.
  set (s := e + Z.log2 m - 52) in *.
  assert (Hmod : (m * 2 ^ e) mod 2 ^ s = 0).
  { assert (Hl : Z.log2 m <= 53).
    { change 53 with (Z.log2 (2 ^ 53)). apply Z.log2_le_mono. lia. }
    destruct (Z.eq_dec (Z.log2 m) 53) as [E53 | E53].
    - assert (m = 2 ^ 53).
      { destruct (Z.eq_dec m (2 ^ 53)) as [E' | E']; [exact E'|].
        assert (Hlt : m < 2 ^ 53) by lia.
        apply Z.log2_lt_pow2 in Hlt; lia. }
      subst m. replace s with (e + 1) by (unfold s; lia).
      replace (2 ^ 53 * 2 ^ e) with (2 ^ 52 * 2 ^ (e + 1)).
      + apply Z.mod_mul. apply Z.pow_nonzero; lia.
      + rewrite (Z.pow_add_r 2 e 1) by lia. change (2 ^ 53) with (2 ^ 52 * 2). ring.
    - replace e with ((e - s) + s) at 1 by lia.
      rewrite Z.pow_add_r by (unfold s; lia).
      rewrite Z.mul_assoc. apply Z.mod_mul. apply Z.pow_nonzero; unfold s; lia. }
  rewrite Hmod in *.
  assert (Hc : (2 ^ (s - 1) <? 0) || ((0 =? 2 ^ (s - 1)) && Z.odd (m * 2 ^ e / 2 ^ s)) = false).
  { apply orb_false_iff. split; [apply Z.ltb_ge; lia|].
    apply andb_false_iff. left. apply Z.eqb_neq. lia. }
  rewrite Hc. lia.
Qed.

Lemma round53_nonneg (n : Z) : 0 <= n -> 0 <= round53 n.
Proof. intros Hn. pose proof (round53_lower n Hn). lia. Qed.

Lemma float_of_int_pos (n : Z) : 0 < n -> float_of_int n = round53 n.
Proof.
  intros Hn. unfold float_of_int.
  rewrite Z.sgn_pos, Z.abs_eq by lia. lia.
Qed.

(** Up to [2^53] the conversion is exact. *)
Lemma float_of_int_small (n : Z) : 0 <= n <= 2 ^ 53 -> float_of_int n = n.
Proof.
  intros Hn. unfold float_of_int.
  rewrite Z.abs_eq, round53_small by lia.
  destruct (Z.eq_dec n 0) as [E | E]; [subst; reflexivity|].
  rewrite Z.sgn_pos by lia. lia.
Qed.

Lemma float_of_int_lower (n : Z) :
  0 < n -> (2 ^ 53 - 1) * n <= 2 ^ 53 * float_of_int n.
Proof. intros Hn. rewrite float_of_int_pos by lia. apply round53_lower. lia. Qed.

Lemma int_mul_float_pos (n m : Z) :
  0 < n -> 0 < m -> int_mul_float n m = round53 (float_of_int n * m).
Proof.
  intros Hn Hm. unfold int_mul_float. cbv zeta.
  pose proof (float_of_int_lower n Hn) as Hl.
  assert (0 < float_of_int n) by lia.
  assert (0 < float_of_int n * m) by (apply Z.mul_pos_pos; lia).
  rewrite Z.sgn_pos, Z.abs_eq by lia. lia.
Qed.

(** [i > chunk_size * 0.5] compares [2 * i] with [float(chunk_size)]. *)
Lemma gt_half (chunk_size i : Z) :
  0 < chunk_size ->
  int_gt_float i (int_mul_float chunk_size c05) = (float_of_int chunk_size <? 2 * i).
Proof.
  intros Hcs. rewrite int_mul_float_pos by (unfold c05; lia).
  rewrite float_of_int_pos by lia.
  destruct (round53_form chunk_size) as (m & e & Hm & He & E); [lia|].
  rewrite E. unfold c05.
  replace (m * 2 ^ e * 2 ^ 52) with (m * 2 ^ (e + 52))
    by (rewrite Z.pow_add_r by lia; ring).
  rewrite round53_exact by lia.
  rewrite Z.pow_add_r by lia. unfold int_gt_float.
  change (2 ^ 53) with (2 * 2 ^ 52).
  destruct (Z.ltb_spec (m * (2 ^ e * 2 ^ 52)) (i * (2 * 2 ^ 52)));
    destruct (Z.ltb_spec (m * 2 ^ e) (2 * i)); lia.
Qed.

(** An index above [chunk_size * 0.7] is above half of [float(chunk_size)]. *)
Lemma gt_07_half (chunk_size i : Z) :
  0 < chunk_size ->
  int_gt_float i (int_mul_float chunk_size c07) = true ->
  float_of_int chunk_size < 2 * i.
Proof.
  intros Hcs. rewrite int_mul_float_pos by (unfold c07; lia).
  pose proof (float_of_int_lower chunk_size Hcs) as HR.
  assert (H0 : 0 <= float_of_int chunk_size * c07) by (unfold c07; lia).
  pose proof (round53_lower _ H0) as HT.
  unfold int_gt_float. intros Hgt. apply Z.ltb_lt in Hgt.
  unfold c07 in *.
  change (2 ^ 53) with 9007199254740992 in *. lia.
Qed.

(** The thresholds themselves are not negative. *)
Lemma int_mul_float_nonneg (n m : Z) : 0 < n -> 0 < m -> 0 <= int_mul_float n m.
Proof.
  intros Hn Hm. rewrite int_mul_float_pos by lia.
  apply round53_nonneg.
  pose proof (float_of_int_lower n Hn). apply Z.mul_nonneg_nonneg; lia.
Qed.

Lemma int_gt_float_pos (i t : Z) : 0 <= t -> int_gt_float i t = true -> 0 < i.
Proof. unfold int_gt_float. intros Ht H. apply Z.ltb_lt in H. lia. Qed.

Lemma advancing_half (chunk_size overlap : Z) :
  0 < chunk_size <= 2 ^ 53 -> 0 <= 2 * overlap <= chunk_size ->
  advancing chunk_size overlap.
Proof.
  intros Hcs Hov. unfold advancing.
  rewrite float_of_int_small by lia. lia.
Qed.

Lemma advancing_quarter (chunk_size overlap : Z) :
  0 < chunk_size -> 0 <= 4 * overlap <= chunk_size ->
  advancing chunk_size overlap.
Proof.
  intros Hcs Hov. unfold advancing.
  pose proof (float_of_int_lower chunk_size Hcs) as HR.
  change (2 ^ 53) with 9007199254740992 in *. lia.
Qed.

(* ================================================================== *)
(** ** The splitter: cuts, progress, results *)
(* ================================================================== *)

Lemma split_loop_step (fuel : nat) (text : str) (chunk_size overlap start : Z)
    (chunks : list str) :
  split_loop (S fuel) text chunk_size overlap start chunks =
  if start <? len text then
    if len text <=? start + chunk_size then
      Returned (chunks ++ [slice_from text start])
    else
      split_loop fuel text chunk_size overlap
        (cut_end text chunk_size start - overlap)
        (chunks ++ [slice text start (cut_end text chunk_size start)])
  else Returned chunks.
Proof. reflexivity. Qed.

(** The three ways [end] is set. *)
Lemma cut_end_cases (text : str) (chunk_size start : Z) :
  let chunk := slice text start (start + chunk_size) in
  (int_gt_float (last_sentence chunk) (int_mul_float chunk_size c07) = true
   /\ cut_end text chunk_size start = start + last_sentence chunk + 1)
  \/ (int_gt_float (last_sentence chunk) (int_mul_float chunk_size c07) = false
      /\ int_gt_float (rfind chunk chr_space) (int_mul_float chunk_size c05) = true
      /\ cut_end text chunk_size start = start + rfind chunk chr_space)
  \/ (int_gt_float (last_sentence chunk) (int_mul_float chunk_size c07) = false
      /\ int_gt_float (rfind chunk chr_space) (int_mul_float chunk_size c05) = false
      /\ cut_end text chunk_size start = start + chunk_size).
Proof.
  intros chunk. unfold cut_end. cbv zeta. fold chunk.
  destruct (int_gt_float (last_sentence chunk) _); [left; auto|].
  destruct (int_gt_float (rfind chunk chr_space) _); right; [left | right]; auto.
Qed.

(** A cut is after [start] and inside the window. *)
Lemma cut_end_range (text : str) (chunk_size start : Z) :
  0 < chunk_size ->
  start < cut_end text chunk_size start <= start + chunk_size.
Proof.
  intros Hcs.
  assert (Hw : len (slice text start (start + chunk_size)) <= chunk_size)
    by (apply len_slice_width; lia).
  pose proof (last_sentence_range (slice text start (start + chunk_size))) as Hs.
  pose proof (rfind_range (slice text start (start + chunk_size)) chr_space) as Hp.
  destruct (cut_end_cases text chunk_size start) as [(G & E) | [(_ & G & E) | (_ & _ & E)]];
    rewrite E; try lia.
  - apply int_gt_float_pos in G; [lia|].
    apply int_mul_float_nonneg; [lia | reflexivity].
  - apply int_gt_float_pos in G; [lia|].
    apply int_mul_float_nonneg; [lia | reflexivity].
Qed.

(** With an [advancing] configuration a cut is more than [overlap] after
    [start]. *)
Lemma cut_end_advances (text : str) (chunk_size overlap start : Z) :
  advancing chunk_size overlap ->
  start + overlap < cut_end text chunk_size start.
Proof.
  intros (Hcs & Hov & HR).
  destruct (cut_end_cases text chunk_size start) as [(G & E) | [(_ & G & E) | (_ & _ & E)]];
    rewrite E.
  - apply gt_07_half in G; lia.
  - rewrite gt_half in G by lia. apply Z.ltb_lt in G. lia.
  - lia.
Qed.

(** *** Every chunk fits in the window *)

Lemma split_loop_fits (text : str) (chunk_size overlap : Z) :
  0 < chunk_size ->
  forall (fuel : nat) (start : Z) (chunks : list str),
    Forall (fits chunk_size) chunks ->
    Forall (fits chunk_size)
      (emitted (split_loop fuel text chunk_size overlap start chunks)).
Proof.
  intros Hcs. induction fuel as [|fuel IH]; intros start chunks Hall.
  - exact Hall.
  - rewrite split_loop_step.
    destruct (Z.ltb_spec start (len text)) as [Hlt | Hge]; [|exact Hall].
    destruct (Z.leb_spec (len text) (start + chunk_size)) as [Hlast | Hmore].
    + simpl. apply Forall_app. split; [exact Hall|].
      constructor; [|constructor].
      unfold fits. rewrite len_slice_from. unfold clamp.
      destruct (Z.ltb_spec start 0); lia.
    + apply IH. apply Forall_app. split; [exact Hall|].
      constructor; [|constructor].
      pose proof (cut_end_range text chunk_size start Hcs) as He.
      unfold fits. apply len_slice_width; lia.
Qed.

(** *** More iterations do not change a result *)

Lemma split_loop_more (text : str) (chunk_size overlap : Z) (l : list str) :
  forall (fuel fuel' : nat) (start : Z) (chunks : list str),
    (fuel <= fuel')%nat ->
    split_loop fuel text chunk_size overlap start chunks = Returned l ->
    split_loop fuel' text chunk_size overlap start chunks = Returned l.
Proof.
  induction fuel as [|fuel IH]; intros fuel' start chunks Hle H.
  - discriminate H.
  - destruct fuel' as [|fuel']; [lia|].
    rewrite split_loop_step in *.
    destruct (start <? len text); [|exact H].
    destruct (len text <=? start + chunk_size); [exact H|].
    apply IH; [lia | exact H].
Qed.

Lemma split_more (text : str) (chunk_size overlap : Z) (l : list str)
    (fuel fuel' : nat) :
  (fuel <= fuel')%nat ->
  split_text_into_chunks fuel text chunk_size overlap = Returned l ->
  split_text_into_chunks fuel' text chunk_size overlap = Returned l.
Proof.
  unfold split_text_into_chunks. intros Hle H.
  destruct (len text <=? chunk_size); [exact H|].
  eapply split_loop_more; eauto.
Qed.

(** A call returns at most one list. *)
Lemma returns_unique (text : str) (chunk_size overlap : Z) (l1 l2 : list str) :
  returns text chunk_size overlap l1 -> returns text chunk_size overlap l2 -> l1 = l2.
Proof.
  intros [f1 H1] [f2 H2].
  apply (split_more _ _ _ _ f1 (Nat.max f1 f2)) in H1; [|lia].
  apply (split_more _ _ _ _ f2 (Nat.max f1 f2)) in H2; [|lia].
  congruence.
Qed.

Lemma diverges_not_returns (text : str) (chunk_size overlap : Z) :
  diverges text chunk_size overlap ->
  forall l, ~ returns text chunk_size overlap l.
Proof.
  intros Hd l [fuel H]. destruct (Hd fuel) as (s & c & E). congruence.
Qed.

(** *** The shape of the result for an advancing configuration *)

Lemma split_loop_chain (text : str) (chunk_size overlap : Z) :
  advancing chunk_size overlap ->
  forall (fuel : nat) (start : Z) (chunks : list str),
    0 <= start -> start + overlap < len text ->
    len text - start <= Z.of_nat fuel ->
    exists l,
      split_loop fuel text chunk_size overlap start chunks = Returned (chunks ++ l)
      /\ chain text overlap start l.
Proof.
  intros Hadv. pose proof Hadv as (Hcs & Hov & _).
  induction fuel as [|fuel IH]; intros start chunks Hs Hso Hfuel.
  - lia.
  - rewrite split_loop_step.
    destruct (Z.ltb_spec start (len text)) as [Hlt | Hge]; [|lia].
    destruct (Z.leb_spec (len text) (start + chunk_size)) as [Hlast | Hmore].
    + exists [slice_from text start]. split; [reflexivity|].
      apply chain_last; assumption.
    + pose proof (cut_end_range text chunk_size start Hcs) as He.
      pose proof (cut_end_advances text chunk_size overlap start Hadv) as Ha.
      set (e := cut_end text chunk_size start) in *.
      destruct (IH (e - overlap) (chunks ++ [slice text start e])) as (l & E & Hl);
        try lia.
      exists (slice text start e :: l). split.
      * rewrite E, <- app_assoc. reflexivity.
      * apply chain_cons; try assumption; lia.
Qed.

(** An advancing configuration returns, within [len(text)] iterations. *)
Lemma split_returns (text : str) (chunk_size overlap : Z) :
  advancing chunk_size overlap ->
  exists chunks,
    (forall fuel, (List.length text <= fuel)%nat ->
       split_text_into_chunks fuel text chunk_size overlap = Returned chunks)
    /\ (chunks = [text] /\ len text <= chunk_size
        \/ chain text overlap 0 chunks /\ chunk_size < len text).
Proof.
  intros Hadv. pose proof Hadv as (Hcs & Hov & _).
  unfold split_text_into_chunks.
  destruct (Z.leb_spec (len text) chunk_size) as [Hle | Hgt].
  - exists [text]. split; [reflexivity | left; split; [reflexivity | assumption]].
  - destruct (split_loop_chain text chunk_size overlap Hadv (List.length text) 0 [])
      as (l & E & Hl); try (unfold len in *; lia).
    exists l. split; [|right; split; assumption].
    intros fuel Hfuel. eapply split_loop_more; eauto.
Qed.

Lemma chain_nonempty (text : str) (overlap start : Z) (l : list str) :
  chain text overlap start l -> l <> [].
Proof. intros H. destruct H; discriminate. Qed.

(** Every chunk of a chain is longer than the overlap. *)
Lemma chain_longer (text : str) (overlap start : Z) (l : list str) :
  0 <= overlap -> chain text overlap start l ->
  Forall (fun c => overlap < len c) l.
Proof.
  intros Hov H. induction H as [s Hs Hso | s e l Hs Hse He Hc IH].
  - constructor; [|constructor].
    rewrite len_slice_from, clamp_inside; lia.
  - constructor; [|exact IH].
    rewrite len_slice, !clamp_inside; lia.
Qed.

(** The first [overlap] characters of a chain are those of the text at
    its start. *)
Lemma chain_head (text : str) (overlap start : Z) (l : list str) :
  0 <= overlap -> chain text overlap start l ->
  firstn (Z.to_nat overlap) (hd [] l)
  = firstn (Z.to_nat overlap) (skipn (Z.to_nat start) text).
Proof.
  intros Hov H. destruct H as [s Hs Hso | s e l Hs Hse He Hc]; simpl.
  - rewrite slice_from_inside by lia. reflexivity.
  - rewrite slice_inside by lia. rewrite firstn_firstn.
    f_equal. lia.
Qed.

(** Without their first [overlap] characters, the chunks of a chain make
    up the text from [start + overlap] on. *)
Lemma chain_core (text : str) (overlap start : Z) (l : list str) :
  0 <= overlap -> chain text overlap start l ->
  concat (map (skipn (Z.to_nat overlap)) l) = skipn (Z.to_nat (start + overlap)) text.
Proof.
  intros Hov H. induction H as [s Hs Hso | s e l Hs Hse He Hc IH]; simpl.
  - rewrite app_nil_r, slice_from_inside by lia.
    rewrite skipn_skipn. f_equal. lia.
  - rewrite IH. rewrite slice_inside by lia.
    rewrite skipn_firstn_comm, skipn_skipn.
    replace (Z.to_nat (e - overlap + overlap))
      with ((Z.to_nat (e - s) - Z.to_nat overlap) + Z.to_nat (s + overlap))%nat by lia.
    rewrite <- (skipn_skipn _ (Z.to_nat (s + overlap)) text).
    replace (Z.to_nat overlap + Z.to_nat s)%nat with (Z.to_nat (s + overlap)) by lia.
    apply firstn_skipn.
Qed.

Lemma chain_reconstruct (text : str) (overlap : Z) (l : list str) :
  0 <= overlap -> chain text overlap 0 l -> reconstruct overlap l = text.
Proof.
  intros Hov H.
  pose proof (chain_head _ _ _ _ Hov H) as Hh.
  pose proof (chain_core _ _ _ _ Hov H) as Hc.
  destruct l as [|c rest]; [exfalso; eapply chain_nonempty; eauto|].
  simpl in *.
  rewrite <- (firstn_skipn (Z.to_nat overlap) c), <- app_assoc, Hc, Hh.
  apply firstn_skipn.
Qed.

Lemma chain_overlapping (text : str) (overlap start : Z) (l : list str) :
  0 <= overlap -> chain text overlap start l ->
  overlapping (Z.to_nat overlap) l.
Proof.
  intros Hov H. induction H as [s Hs Hso | s e l Hs Hse He Hc IH].
  - exact I.
  - pose proof (chain_head _ _ _ _ Hov Hc) as Hh.
    destruct l as [|c' rest]; [exact I|].
    split; [|exact IH]. simpl in Hh. rewrite Hh.
    assert (El : List.length (slice text s e) = Z.to_nat (e - s)).
    { pose proof (len_slice text s e) as E. rewrite !clamp_inside in E by lia.
      unfold len in E. lia. }
    rewrite El, slice_inside by lia.
    rewrite skipn_firstn_comm, skipn_skipn.
    f_equal; [lia|]. f_equal. lia.
Qed.

(* ================================================================== *)
(** ** The translation loop *)
(* ================================================================== *)

Section LoopFacts.

Variables (temp client : Type).
Variable chat : client -> chat_request temp -> chat_result * client.
Variables (target_lang source_lang : str) (temperature : temp) (context_text : str).

Let req (chunk : str) : chat_request temp :=
  request chunk target_lang source_lang temperature context_text.
Let body := loop_body chat target_lang source_lang temperature context_text.
Let loop := translate_loop chat target_lang source_lang temperature context_text.

Lemma user_text_request (chunk : str) : user_text (req chunk) = chunk.
Proof. unfold req, request, user_text. simpl. apply app_nil_r. Qed.

Lemma body_blank (total i : nat) (chunk : str) (translated : list str)
    (w : world temp client) :
  nonblank chunk = false -> body total i chunk translated w = (translated, w).
Proof.
  unfold body, loop_body, nonblank. intros H. rewrite H. reflexivity.
Qed.

(** One pass over a chunk that is not blank: one call, whatever its
    result, one more entry in the list, one progress report. *)
Lemma body_nonblank (total i : nat) (chunk : str) (translated : list str)
    (w : world temp client) :
  nonblank chunk = true ->
  body total i chunk translated w =
  (translated ++ [result_text (fst (chat (svc w) (req chunk)))],
   {| svc := snd (chat (svc w) (req chunk));
      ui := ui w ++ [StatusText (status_message i total); ChatCall (req chunk)]
              ++ map StError (shown_error (fst (chat (svc w) (req chunk))))
              ++ [Progress (i + 1) total; Sleep] |}).
Proof.
  unfold body, loop_body, nonblank. intros H. rewrite H.
  unfold translate_chunk, bind, emit, client_chat, ret. simpl.
  fold (req chunk). destruct (chat (svc w) (req chunk)) as [[content | e] c'];
    simpl; rewrite <- ?app_assoc; reflexivity.
Qed.

Lemma chat_calls_app (a b : list (event temp)) :
  chat_calls (a ++ b) = chat_calls a ++ chat_calls b.
Proof. apply flat_map_app. Qed.

Lemma progress_reports_app (a b : list (event temp)) :
  progress_reports (a ++ b) = progress_reports a ++ progress_reports b.
Proof. apply flat_map_app. Qed.

Lemma errors_shown_app (a b : list (event temp)) :
  errors_shown (a ++ b) = errors_shown a ++ errors_shown b.
Proof. apply flat_map_app. Qed.

Lemma chat_calls_errors (l : list str) : chat_calls (map (@StError temp) l) = [].
Proof. induction l; simpl; auto. Qed.

Lemma progress_reports_errors (l : list str) :
  progress_reports (map (@StError temp) l) = [].
Proof. induction l; simpl; auto. Qed.

Lemma errors_shown_errors (l : list str) : errors_shown (map (@StError temp) l) = l.
Proof. induction l; simpl; congruence. Qed.

(** The list the loop builds: one string per chunk that is not blank, in
    order, the text of the response or the failure marker. *)
Lemma loop_result (total : nat) (chunks : list str) :
  forall (i : nat) (translated : list str) (w : world temp client),
    fst (loop total i chunks translated w)
    = translated
        ++ map result_text (chat_trace chat (svc w) (map req (filter nonblank chunks))).
Proof.
  induction chunks as [|chunk rest IH]; intros i translated w; simpl.
  - rewrite app_nil_r. reflexivity.
  - unfold bind. fold body. destruct (nonblank chunk) eqn:Hb.
    + rewrite body_nonblank by assumption. fold loop. rewrite IH. simpl.
      destruct (chat (svc w) (req chunk)) as [o c']. simpl.
      rewrite <- app_assoc. reflexivity.
    + rewrite body_blank by assumption. fold loop. apply IH.
Qed.

(** The calls the loop makes: one per chunk that is not blank, in order. *)
Lemma loop_calls (total : nat) (chunks : list str) :
  forall (i : nat) (translated : list str) (w : world temp client),
    chat_calls (ui (snd (loop total i chunks translated w)))
    = chat_calls (ui w) ++ map req (filter nonblank chunks).
Proof.
  induction chunks as [|chunk rest IH]; intros i translated w; simpl.
  - rewrite app_nil_r. reflexivity.
  - unfold bind. fold body. destruct (nonblank chunk) eqn:Hb.
    + rewrite body_nonblank by assumption. fold loop. rewrite IH. cbn [ui svc snd fst].
      rewrite !chat_calls_app, chat_calls_errors. simpl.
      rewrite <- app_assoc. reflexivity.
    + rewrite body_blank by assumption. fold loop. apply IH.
Qed.

(** The progress reports: one per chunk that is not blank, with the
    position of the chunk in the whole list. *)
Lemma loop_progress (total : nat) (chunks : list str) :
  forall (i : nat) (translated : list str) (w : world temp client),
    progress_reports (ui (snd (loop total i chunks translated w)))
    = progress_reports (ui w)
        ++ map (fun j => (j + 1, total)%nat) (nonblank_indices i chunks).
Proof.
  induction chunks as [|chunk rest IH]; intros i translated w; simpl.
  - rewrite app_nil_r. reflexivity.
  - unfold bind. fold body. destruct (nonblank chunk) eqn:Hb.
    + rewrite body_nonblank by assumption. fold loop. rewrite IH. cbn [ui svc snd fst].
      rewrite !progress_reports_app, progress_reports_errors. simpl.
      rewrite <- app_assoc. reflexivity.
    + rewrite body_blank by assumption. fold loop. apply IH.
Qed.

(** The errors shown: one per call that raised. *)
Lemma loop_errors (total : nat) (chunks : list str) :
  forall (i : nat) (translated : list str) (w : world temp client),
    errors_shown (ui (snd (loop total i chunks translated w)))
    = errors_shown (ui w)
        ++ flat_map shown_error
             (chat_trace chat (svc w) (map req (filter nonblank chunks))).
Proof.
  induction chunks as [|chunk rest IH]; intros i translated w; simpl.
  - rewrite app_nil_r. reflexivity.
  - unfold bind. fold body. destruct (nonblank chunk) eqn:Hb.
    + rewrite body_nonblank by assumption. fold loop. rewrite IH. cbn [ui svc snd fst].
      rewrite !errors_shown_app, errors_shown_errors. simpl.
      destruct (chat (svc w) (req chunk)) as [o c']. simpl.
      rewrite app_nil_r, <- app_assoc. reflexivity.
    + rewrite body_blank by assumption. fold loop. apply IH.
Qed.


Lemma nonblank_indices_all (chunks : list str) (i : nat) :
  Forall (fun c => nonblank c = true) chunks ->
  nonblank_indices i chunks = seq i (List.length chunks).
Proof.
  intros H. revert i. induction H as [|c l Hc Hl IH]; intros i; simpl; [reflexivity|].
  rewrite Hc, IH. reflexivity.
Qed.


End LoopFacts.

(* ================================================================== *)
(** ** Examples *)
(* ================================================================== *)

Example split_hello :
  split_text_into_chunks 3 hello 15 0
  = Returned [lit "Hello world."; lit " This is a"; lit " test!"].
Proof. reflexivity. Qed.

(** For [chunk_size = 700] the product [700 * 0.7] is the double just
    below 490, so a terminator at index 490 is past the threshold. *)
Example threshold_700 :
  int_mul_float 700 c07 = 490 * 2 ^ 53 - 2 ^ 9
  /\ int_gt_float 490 (int_mul_float 700 c07) = true.
Proof. split; reflexivity. Qed.

Example threshold_15 : int_mul_float 15 c07 = 21 * 2 ^ 52.
Proof. reflexivity. Qed.

(** [int_mul_float] gives the binary64 product for every [chunk_size]
    from -100 to 3000 (the slider of the page goes from 500 to 3000), and
    for some integers that need more than 53 bits. *)
Example thresholds_are_binary64 :
  forallb (fun n => agrees_with_binary64 c07 n && agrees_with_binary64 c05 n)
    (map (fun k => Z.of_nat k - 100) (seq 0 3101)
     ++ [2 ^ 53 + 1; 2 ^ 53 + 3; 2 ^ 55 + 4; 2 ^ 55 + 12; 2 ^ 60 + 12345;
         2 ^ 62 + 2 ^ 9; 2 ^ 63 - 1; - (2 ^ 55 + 12); 3 ^ 40; 7 ^ 22])
  = true.
Proof. vm_compute. reflexivity. Qed.

(** With [overlap = 6] the cut at the space of [spaced] sends [start]
    back to 0: the loop appends the same chunk for ever. *)
Lemma spaced_loops (fuel : nat) :
  forall chunks, exists chunks',
    split_loop fuel spaced 10 6 0 chunks = Running 0 chunks'.
Proof.
  induction fuel as [|fuel IH]; intros chunks.
  - exists chunks. reflexivity.
  - rewrite split_loop_step.
    change (0 <? len spaced) with true.
    change (len spaced <=? 0 + 10) with false.
    change (cut_end spaced 10 0) with 6. cbv iota.
    apply IH.
Qed.

Lemma spaced_diverges : diverges spaced 10 6.
Proof.
  intros fuel. unfold split_text_into_chunks.
  change (len spaced <=? 10) with false. cbv iota.
  destruct (spaced_loops fuel []) as [l E]. eauto.
Qed.

Example sample_run :
  fst (translate_chunks sample_chat en fr tt sample_context
         [lit "un"; lit "deux"; lit "  "; lit "trois"] sample_world)
  = (lit "<un> [" ++ [chr_E_acute] ++ lit "chec de la traduction: timeout] <trois>",
     3%nat).
Proof. reflexivity. Qed.

(* ================================================================== *)
(** ** Properties of the splitter *)
(* ================================================================== *)

(** Every configuration the sliders of the page allow ([chunk_size] from
    500 to 3000, [overlap] from 0 to [min(300, chunk_size // 4)]) returns. *)
Lemma split_returns_for_sliders (text : str) (chunk_size overlap : Z) :
  500 <= chunk_size <= 3000 ->
  0 <= overlap <= Z.min 300 (chunk_size / 4) ->
  exists chunks, returns text chunk_size overlap chunks.
Proof.
  intros Hcs Hov.
  assert (4 * (chunk_size / 4) <= chunk_size)
    by (apply Z.mul_div_le; lia).
  destruct (split_returns text chunk_size overlap) as (chunks & Hret & _).
  - apply advancing_quarter; lia.
  - exists chunks, (List.length text). auto.
Qed.

(** C3, as stated, fails: [chunk_size = 10] and [overlap = 6] satisfy
    [chunk_size > 0] and [0 <= overlap < chunk_size], and on the text
    [spaced] the call never returns. *)
Lemma split_overlap_6_of_10_never_returns :
  0 < 10 /\ 0 <= 6 < 10 /\ ~ (exists chunks, returns spaced 10 6 chunks).
Proof.
  split; [lia|]. split; [lia|].
  intros [chunks H]. exact (diverges_not_returns _ _ _ spaced_diverges chunks H).
Qed.

(** C3, amended: for every text, every [chunk_size] with
    [0 < chunk_size <= 2^53] and every [overlap] with
    [0 <= 2 * overlap <= chunk_size], the splitter returns within
    [len(text)] iterations of its loop, and the list it returns is not
    empty. *)
Theorem split_terminates (text : str) (chunk_size overlap : Z) :
  0 < chunk_size <= 2 ^ 53 ->
  0 <= 2 * overlap <= chunk_size ->
  exists chunks,
    (forall fuel, (List.length text <= fuel)%nat ->
       split_text_into_chunks fuel text chunk_size overlap = Returned chunks)
    /\ chunks <> [].
Proof.
  intros Hcs Hov.
  destruct (split_returns text chunk_size overlap (advancing_half _ _ Hcs Hov))
    as (chunks & Hret & [[E _] | [Hc _]]).
  - exists chunks. split; [exact Hret | subst; discriminate].
  - exists chunks. split; [exact Hret | eapply chain_nonempty; eauto].
Qed.

Lemma split_terminates_witness :
  exists chunks,
    (forall fuel, (List.length hello <= fuel)%nat ->
       split_text_into_chunks fuel hello 15 7 = Returned chunks)
    /\ chunks <> [].
Proof. apply (split_terminates hello 15 7); lia. Defined.

(** C4, as stated, fails: the call on ["Hello world. This is a test!"]
    with [chunk_size = 15] and [overlap = 0] does not return the two
    segments ["Hello world. "] and ["This is a test!"]. *)
Lemma split_hello_not_two_segments :
  ~ returns hello 15 0 [lit "Hello world. "; lit "This is a test!"].
Proof.
  intros H.
  assert (H3 : returns hello 15 0 [lit "Hello world."; lit " This is a"; lit " test!"])
    by (exists 3%nat; reflexivity).
  pose proof (returns_unique _ _ _ _ _ H H3) as E.
  vm_compute in E. discriminate E.
Qed.

(** C4, amended: for the input ["Hello world. This is a test!"] with
    [chunk_size = 15] and [overlap = 0] the splitter returns the three
    segments ["Hello world."], [" This is a"] and [" test!"]: the first
    cut is right after the full stop at index 11 (11 > 10.5), the second
    at the space at offset 10 of the window [" This is a test"]
    (10 > 7.5). *)
Theorem split_hello_three_segments :
  returns hello 15 0 [lit "Hello world."; lit " This is a"; lit " test!"]
  /\ cut_end hello 15 0 = 12
  /\ cut_end hello 15 12 = 22.
Proof. split; [exists 3%nat; reflexivity | split; reflexivity]. Qed.

(** C5, as stated, fails: with [chunk_size = 10] and [overlap = 7] (so
    [overlap < chunk_size]) the text [spaced], 14 characters long, is
    split into four chunks, and the first chunk followed by the others
    without their first 7 characters has 11 characters. *)
Lemma reconstruct_overlap_7_of_10_loses_text :
  0 <= 7 < 10
  /\ returns spaced 10 7 [lit "aaaaaa"; []; lit "aaaa aaaaa"; lit "a aaaaaaa"]
  /\ reconstruct 7 [lit "aaaaaa"; []; lit "aaaa aaaaa"; lit "a aaaaaaa"]
     = lit "aaaaaaaaaaa"
  /\ reconstruct 7 [lit "aaaaaa"; []; lit "aaaa aaaaa"; lit "a aaaaaaa"] <> spaced.
Proof.
  split; [lia|]. split; [exists 4%nat; reflexivity|].
  split; [reflexivity|]. vm_compute. discriminate.
Qed.

(** C5, amended: for every text, every [chunk_size] with
    [0 < chunk_size <= 2^53] and every [overlap] with
    [0 <= 2 * overlap <= chunk_size], the splitter returns a list of
    segments, and the first segment followed by each later segment
    without its first [overlap] characters is the text. *)
Theorem reconstruct_text (text : str) (chunk_size overlap : Z) :
  0 < chunk_size <= 2 ^ 53 ->
  0 <= 2 * overlap <= chunk_size ->
  exists chunks,
    returns text chunk_size overlap chunks
    /\ reconstruct overlap chunks = text.
Proof.
  intros Hcs Hov.
  destruct (split_returns text chunk_size overlap (advancing_half _ _ Hcs Hov))
    as (chunks & Hret & [[E _] | [Hc _]]).
  - exists chunks. split; [exists (List.length text); auto|].
    subst. simpl. apply app_nil_r.
  - exists chunks. split; [exists (List.length text); auto|].
    apply chain_reconstruct; [lia | exact Hc].
Qed.

Lemma reconstruct_text_witness :
  exists chunks, returns hello 15 7 chunks /\ reconstruct 7 chunks = hello.
Proof. apply (reconstruct_text hello 15 7); lia. Defined.

(** C6, as stated, fails: on the empty string, with the default
    [chunk_size = 2000] and [overlap = 50], the splitter does not return
    the empty list. *)
Lemma split_empty_not_empty_list : ~ returns [] 2000 50 [].
Proof. intros [fuel H]. discriminate H. Qed.

(** C6, amended: for the empty string and any [chunk_size >= 0] the
    splitter returns a list with exactly one segment, the empty string
    (which is blank: the translation loop skips it). *)
Theorem split_empty_one_blank_segment (fuel : nat) (chunk_size overlap : Z) :
  0 <= chunk_size ->
  split_text_into_chunks fuel [] chunk_size overlap = Returned [[]]
  /\ nonblank [] = false.
Proof.
  intros Hcs. unfold split_text_into_chunks.
  change (len []) with 0.
  destruct (Z.leb_spec 0 chunk_size); [split; reflexivity | lia].
Qed.

Lemma split_empty_one_blank_segment_witness :
  split_text_into_chunks 0 [] 2000 50 = Returned [[]] /\ nonblank [] = false.
Proof. apply (split_empty_one_blank_segment 0 2000 50). lia. Defined.




(** C10: for every text, every [chunk_size > 0] and every [overlap] with
    [0 <= overlap < chunk_size], every segment of the list the splitter
    returns has at most [chunk_size] characters. *)
Theorem chunks_fit_window (text : str) (chunk_size overlap : Z) (chunks : list str) :
  0 < chunk_size ->
  0 <= overlap < chunk_size ->
  returns text chunk_size overlap chunks ->
  Forall (fun chunk => len chunk <= chunk_size) chunks.
Proof.
  intros Hcs _ [fuel H]. unfold split_text_into_chunks in H.
  destruct (Z.leb_spec (len text) chunk_size) as [Hle | Hgt].
  - injection H as <-. constructor; [exact Hle | constructor].
  - pose proof (split_loop_fits text chunk_size overlap Hcs fuel 0 [] (Forall_nil _)) as F.
    rewrite H in F. exact F.
Qed.

Lemma chunks_fit_window_witness :
  Forall (fun chunk => len chunk <= 15)
    [lit "Hello world."; lit " This is a"; lit " test!"].
Proof.
  apply (chunks_fit_window hello 15 0); [lia | lia | exists 3%nat; reflexivity].
Defined.

(* ================================================================== *)
(** ** Properties of the translation loop *)
(* ================================================================== *)

Section LoopProperties.

Variables (temp client : Type).
Variable chat : client -> chat_request temp -> chat_result * client.
Variables (target_lang source_lang : str) (temperature : temp) (context_text : str).

Let req (chunk : str) : chat_request temp :=
  request chunk target_lang source_lang temperature context_text.
Let loop := translate_loop chat target_lang source_lang temperature context_text.

Lemma chat_trace_length (reqs : list (chat_request temp)) :
  forall c, List.length (chat_trace chat c reqs) = List.length reqs.
Proof.
  induction reqs as [|r rest IH]; intros c; simpl; [reflexivity|].
  destruct (chat c r) as [o c']. simpl. rewrite IH. reflexivity.
Qed.


Lemma submitted_requests (chunks : list str) : map user_text (map req chunks) = chunks.
Proof.
  rewrite map_map. rewrite <- (map_id chunks) at 2.
  apply map_ext. intros c. apply user_text_request.
Qed.

Lemma translate_chunks_loop (chunks : list str) (w : world temp client) :
  translate_chunks chat target_lang source_lang temperature context_text chunks w
  = ((join (lit " ") (fst (loop (List.length chunks) 0%nat chunks [] w)),
      List.length (fst (loop (List.length chunks) 0%nat chunks [] w))),
     snd (loop (List.length chunks) 0%nat chunks [] w)).
Proof.
  unfold translate_chunks, bind, ret. fold loop.
  destruct (loop (List.length chunks) 0%nat chunks [] w). reflexivity.
Qed.


(** C8: the string stored as the translation is the results for the
    segments that are not blank, in the order of the segments, joined
    with one space; the calls are made one after the other, so they
    complete in that order.  For three segments [s0], [s1], [s2], none
    blank, with results [o0], [o1], [o2], it is the text for [o0], a
    space, the text for [o1], a space, the text for [o2]. *)
Theorem translation_is_ordered_join (chunks : list str) (w : world temp client) :
  fst (fst (translate_chunks chat target_lang source_lang temperature context_text
              chunks w))
  = join (lit " ")
      (map result_text (chat_trace chat (svc w) (map req (filter nonblank chunks))))
  /\ forall s0 s1 s2 o0 o1 o2,
       chunks = [s0; s1; s2] ->
       nonblank s0 = true -> nonblank s1 = true -> nonblank s2 = true ->
       chat_trace chat (svc w) [req s0; req s1; req s2] = [o0; o1; o2] ->
       fst (fst (translate_chunks chat target_lang source_lang temperature
                   context_text chunks w))
       = result_text o0 ++ lit " " ++ result_text o1 ++ lit " " ++ result_text o2.
Proof.
  assert (G : fst (fst (translate_chunks chat target_lang source_lang temperature
                          context_text chunks w))
              = join (lit " ")
                  (map result_text
                     (chat_trace chat (svc w) (map req (filter nonblank chunks))))).
  { rewrite translate_chunks_loop. cbn [fst]. unfold loop.
    rewrite loop_result. reflexivity. }
  split; [exact G|].
  intros s0 s1 s2 o0 o1 o2 E H0 H1 H2 Htrace.
  rewrite G. subst chunks. cbn [filter]. rewrite H0, H1, H2.
  cbn [map]. rewrite Htrace. reflexivity.
Qed.


(** C2, amended: for [0 < chunk_size <= 2^53] and
    [0 < 2 * overlap <= chunk_size] the splitter returns segments each of
    which, after the first, starts with the last [overlap] characters of
    the segment before it (all of them longer than [overlap] when the
    text is longer than [chunk_size]), and the loop sends every segment
    that is not blank, whole, to the service: the characters of an
    overlap are sent again with the next segment. *)
Theorem overlap_is_resubmitted (text : str) (chunk_size overlap : Z) :
  0 < chunk_size <= 2 ^ 53 ->
  0 < 2 * overlap <= chunk_size ->
  exists chunks,
    returns text chunk_size overlap chunks
    /\ overlapping (Z.to_nat overlap) chunks
    /\ (chunk_size < len text -> Forall (fun c => overlap < len c) chunks)
    /\ forall w : world temp client,
         submitted (ui (snd (loop (List.length chunks) 0%nat chunks [] w)))
         = submitted (ui w) ++ filter nonblank chunks.
Proof.
  intros Hcs Hov.
  assert (Hadv : advancing chunk_size overlap) by (apply advancing_half; lia).
  destruct (split_returns text chunk_size overlap Hadv)
    as (chunks & Hret & Hshape).
  exists chunks. split; [exists (List.length text); auto|].
  assert (Hsub : forall w : world temp client,
             submitted (ui (snd (loop (List.length chunks) 0%nat chunks [] w)))
             = submitted (ui w) ++ filter nonblank chunks).
  { intros w. unfold submitted, loop. rewrite loop_calls. fold req.
    rewrite map_app, submitted_requests. reflexivity. }
  destruct Hshape as [[E Hle] | [Hc Hgt]].
  - subst chunks. split; [exact I|]. split; [lia | exact Hsub].
  - split; [eapply chain_overlapping; eauto; lia|].
    split; [intros _; eapply chain_longer; eauto; lia | exact Hsub].
Qed.

End LoopProperties.


Lemma translation_is_ordered_join_witness :
  fst (fst (translate_chunks sample_chat en fr tt sample_context
              [lit "un"; lit "deux"; lit "trois"] sample_world))
  = lit "<un>" ++ lit " " ++ failure_marker (lit "timeout") ++ lit " " ++ lit "<trois>".
Proof.
  apply (proj2 (translation_is_ordered_join unit nat sample_chat en fr tt sample_context
                  [lit "un"; lit "deux"; lit "trois"] sample_world)
           (lit "un") (lit "deux") (lit "trois")
           (Response [Some (lit "<"); None; Some (lit "un"); Some (lit ">")])
           (Raised (lit "timeout"))
           (Response [Some (lit "<"); None; Some (lit "trois"); Some (lit ">")]));
    reflexivity.
Defined.



(** C2, as stated, fails: with [chunk_size = 10] and [overlap = 2] the
    run on ["abcdefghijkl"] sends ["abcdefghij"] and then ["ijkl"] to the
    service: the characters ["ij"] are sent twice, 14 characters are sent
    for a text of 12. *)
Lemma overlap_characters_sent_twice :
  let run := translate_clicked sample_chat 2 alphabet sample_context fr en 10 2 tt
               sample_world in
  0 < 2 < 10
  /\ submitted (ui (snd run)) = [lit "abcdefghij"; lit "ijkl"]
  /\ len (concat (submitted (ui (snd run)))) = 14
  /\ len alphabet = 12
  /\ ~ len (concat (submitted (ui (snd run)))) <= len alphabet.
Proof. repeat split; try reflexivity. vm_compute. intros H. apply H. reflexivity. Qed.

Lemma overlap_is_resubmitted_witness :
  exists chunks,
    returns hello 15 7 chunks
    /\ overlapping (Z.to_nat 7) chunks
    /\ (15 < len hello -> Forall (fun c => 7 < len c) chunks)
    /\ forall w : world unit nat,
         submitted (ui (snd (translate_loop sample_chat en fr tt sample_context
                               (List.length chunks) 0 chunks [] w)))
         = submitted (ui w) ++ filter nonblank chunks.
Proof.
  apply (overlap_is_resubmitted unit nat sample_chat en fr tt sample_context hello 15 7); lia.
Defined.

(* ================================================================== *)
(** * Further properties of the program *)
(* ================================================================== *)

(** ** Blank strings and [strip] *)

Lemma lstrip_nil (s : str) : lstrip s = [] <-> forallb is_space s = true.
Proof.
  induction s as [|x s IH]; simpl; [tauto|].
  destruct (is_space x); simpl; [exact IH|]. split; discriminate.
Qed.

Lemma lstrip_clean_head (s : str) : clean_head (lstrip s).
Proof.
  induction s as [|x s IH]; simpl; [exact I|].
  destruct (is_space x) eqn:E; [exact IH | exact E].
Qed.

Lemma lstrip_fixed (s : str) : clean_head s -> lstrip s = s.
Proof. destruct s as [|x s]; simpl; [reflexivity|]. intros ->. reflexivity. Qed.

Lemma lstrip_app_clean (l m : str) (x : char) :
  is_space x = false -> lstrip (l ++ x :: m) = lstrip l ++ x :: m.
Proof.
  intros Hx. induction l as [|y l IH]; simpl.
  - rewrite Hx. reflexivity.
  - destruct (is_space y); [exact IH | reflexivity].
Qed.

Lemma rstrip_clean_head (s : str) : clean_head s -> clean_head (rstrip s).
Proof.
  destruct s as [|x s]; simpl; [intros _; exact I|]. intros Hx.
  unfold rstrip. simpl. rewrite lstrip_app_clean by assumption.
  rewrite rev_app_distr. simpl. exact Hx.
Qed.

Lemma clean_head_all_space (s : str) :
  clean_head s -> forallb is_space s = true -> s = [].
Proof.
  destruct s as [|x s]; simpl; [reflexivity|].
  intros Hx H. rewrite Hx in H. discriminate H.
Qed.

Lemma forallb_rev_true (f : char -> bool) (l : str) :
  forallb f (rev l) = true -> forallb f l = true.
Proof.
  rewrite !forallb_forall. intros H x Hx. apply H. apply in_rev in Hx. exact Hx.
Qed.

(** [s.strip()] is empty exactly when every character of [s] is
    whitespace. *)
Lemma strip_nil (s : str) : strip s = [] <-> forallb is_space s = true.
Proof.
  unfold strip, rstrip. split.
  - intros H. apply (f_equal (@rev char)) in H. rewrite rev_involutive in H.
    simpl in H. apply lstrip_nil, forallb_rev_true in H.
    apply lstrip_nil. apply clean_head_all_space; [apply lstrip_clean_head | exact H].
  - intros H. apply lstrip_nil in H. rewrite H. reflexivity.
Qed.

Lemma nonblank_false (s : str) : nonblank s = false <-> forallb is_space s = true.
Proof.
  unfold nonblank. rewrite <- strip_nil.
  destruct (strip s); simpl; split; congruence.
Qed.

(** A string is not blank exactly when one of its characters is not
    whitespace. *)
Lemma nonblank_true (s : str) :
  nonblank s = true <-> exists c, In c s /\ is_space c = false.
Proof.
  split.
  - intros H. destruct (forallb is_space s) eqn:E.
    + apply nonblank_false in E. congruence.
    + assert (Hex : existsb (fun c => negb (is_space c)) s = true).
      { clear H. induction s as [|x s IH]; simpl in *; [discriminate|].
        destruct (is_space x); simpl in *; [auto | reflexivity]. }
      apply existsb_exists in Hex. destruct Hex as (c & Hc & Hn).
      exists c. split; [exact Hc|]. destruct (is_space c); [discriminate | reflexivity].
  - intros (c & Hc & Hn). destruct (nonblank s) eqn:E; [reflexivity|].
    apply nonblank_false in E. rewrite forallb_forall in E.
    rewrite (E c Hc) in Hn. discriminate.
Qed.

Lemma lstrip_idempotent (s : str) : lstrip (lstrip s) = lstrip s.
Proof. apply lstrip_fixed, lstrip_clean_head. Qed.

Lemma rstrip_idempotent (s : str) : rstrip (rstrip s) = rstrip s.
Proof. unfold rstrip. rewrite rev_involutive, lstrip_idempotent. reflexivity. Qed.

Lemma strip_idempotent (s : str) : strip (strip s) = strip s.
Proof.
  unfold strip.
  rewrite (lstrip_fixed (rstrip (lstrip s)))
    by (apply rstrip_clean_head, lstrip_clean_head).
  apply rstrip_idempotent.
Qed.

(** ** The thresholds against exact arithmetic *)

Lemma round53_upper (n : Z) :
  0 <= n -> 2 ^ 53 * round53 n <= (2 ^ 53 + 1) * n.
Proof.
  intros Hn. unfold round53.
  destruct (Z.ltb_spec (Z.log2 n) 53) as [Hk | Hk]; [lia|].
  destruct (round53_pieces n Hk) as (Hdm & Hr & Hhalf & Hh & Hq).
  cbv zeta in *.
  set (s := Z.log2 n - 52) in *.
  set (q := n / 2 ^ s) in *. set (r := n mod 2 ^ s) in *.
  set (h := 2 ^ (s - 1)) in *. set (P := 2 ^ s) in *.
  change (2 ^ 53) with 9007199254740992 in *.
  change (2 ^ 52) with 4503599627370496 in *.
  destruct ((h <? r) || ((r =? h) && Z.odd q)) eqn:Hc.
  - assert (Hrh : h <= r).
    { apply orb_true_iff in Hc. destruct Hc as [Hc | Hc].
      - apply Z.ltb_lt in Hc. lia.
      - apply andb_true_iff in Hc. destruct Hc as [Hc _]. apply Z.eqb_eq in Hc. lia. }
    nia.
  - nia.
Qed.

(** X3: for [0 < chunk_size <= 2^49], the test
    [i > chunk_size * 0.5] is the exact test [2 * i > chunk_size]; the
    test [i > chunk_size * 0.7] holds whenever [10 * i > 7 * chunk_size]
    and fails whenever [10 * i < 7 * chunk_size].  Only at
    [10 * i = 7 * chunk_size] does the rounding of the product decide
    (see [threshold_700]). *)
Theorem thresholds_against_exact (chunk_size i : Z) :
  0 < chunk_size <= 2 ^ 49 ->
  (int_gt_float i (int_mul_float chunk_size c05) = true <-> chunk_size < 2 * i)
  /\ (7 * chunk_size < 10 * i ->
      int_gt_float i (int_mul_float chunk_size c07) = true)
  /\ (int_gt_float i (int_mul_float chunk_size c07) = true ->
      7 * chunk_size <= 10 * i).
Proof.
  intros Hcs.
  assert (Hsmall : 0 <= chunk_size <= 2 ^ 53).
  { change (2 ^ 49) with 562949953421312 in Hcs.
    change (2 ^ 53) with 9007199254740992. lia. }
  split.
  - rewrite gt_half by lia. rewrite float_of_int_small by exact Hsmall.
    apply Z.ltb_lt.
  - rewrite int_mul_float_pos by (unfold c07; lia).
    rewrite float_of_int_small by exact Hsmall.
    assert (H0 : 0 <= chunk_size * c07) by (unfold c07; lia).
    pose proof (round53_lower _ H0) as Hlo.
    pose proof (round53_upper _ H0) as Hup.
    unfold int_gt_float, c07 in *.
    change (2 ^ 53) with 9007199254740992 in *.
    change (2 ^ 49) with 562949953421312 in *.
    split; intros H.
    + apply Z.ltb_lt. lia.
    + apply Z.ltb_lt in H. lia.
Qed.

Lemma thresholds_against_exact_witness :
  (int_gt_float 1401 (int_mul_float 2000 c05) = true <-> 2000 < 2 * 1401)
  /\ (7 * 2000 < 10 * 1401 -> int_gt_float 1401 (int_mul_float 2000 c07) = true)
  /\ (int_gt_float 1401 (int_mul_float 2000 c07) = true -> 7 * 2000 <= 10 * 1401).
Proof. apply (thresholds_against_exact 2000 1401). split; [lia | vm_compute; discriminate]. Defined.

(** ** The cut after a sentence, and the cut without a boundary *)

Lemma rfind_le (s : str) (c : char) (k : nat) :
  (forall j : nat, (k < j)%nat -> nth_error s j <> Some c) ->
  rfind s c <= Z.of_nat k.
Proof.
  intros Hlast. destruct (Z.ltb_spec (rfind s c) 0) as [Hneg | Hpos]; [lia|].
  destruct (rfind_found s c Hpos) as [Hat _].
  destruct (Nat.le_gt_cases (Z.to_nat (rfind s c)) k) as [Hle | Hgt]; [lia|].
  exfalso. exact (Hlast _ Hgt Hat).
Qed.

Lemma is_terminator_cases (c : char) :
  is_terminator c = true -> c = chr_dot \/ c = chr_bang \/ c = chr_qmark.
Proof.
  unfold is_terminator. intros H.
  apply orb_true_iff in H. destruct H as [H | H].
  - apply orb_true_iff in H. destruct H as [H | H]; apply N.eqb_eq in H; auto.
  - apply N.eqb_eq in H. auto.
Qed.

(** [last_sentence] is the index of the last terminator. *)
Lemma last_sentence_last (chunk : str) (k : nat) (c : char) :
  is_terminator c = true ->
  nth_error chunk k = Some c ->
  (forall (j : nat) (c' : char),
     (k < j)%nat -> nth_error chunk j = Some c' -> is_terminator c' = false) ->
  last_sentence chunk = Z.of_nat k.
Proof.
  intros Hc Hk Hlast.
  assert (Hno : forall c', is_terminator c' = true ->
                  forall j : nat, (k < j)%nat -> nth_error chunk j <> Some c').
  { intros c' Hc' j Hj Hat. rewrite (Hlast j c' Hj Hat) in Hc'. discriminate. }
  pose proof (rfind_le chunk chr_dot k (Hno chr_dot eq_refl)) as Hd.
  pose proof (rfind_le chunk chr_bang k (Hno chr_bang eq_refl)) as Hb.
  pose proof (rfind_le chunk chr_qmark k (Hno chr_qmark eq_refl)) as Hq.
  pose proof (rfind_last chunk c k Hk (Hno c Hc)) as E.
  unfold last_sentence.
  destruct (is_terminator_cases c Hc) as [-> | [-> | ->]]; lia.
Qed.

(** Without any terminator the search gives [-1]. *)
Lemma last_sentence_absent (chunk : str) :
  (forall c, In c chunk -> is_terminator c = false) -> last_sentence chunk = -1.
Proof.
  intros H.
  assert (Hno : forall c, is_terminator c = true -> ~ In c chunk).
  { intros c Hc Hin. rewrite (H c Hin) in Hc. discriminate. }
  unfold last_sentence.
  rewrite !rfind_absent by (apply Hno; reflexivity). reflexivity.
Qed.

(** X1: in a window that is not the last one, if the last of the
    characters [.], [!], [?] is at an offset [k] above
    [chunk_size * 0.7], the chunk appended is the window up to and
    including that character, and the next window starts at
    [start + k + 1 - overlap]. *)
Theorem cut_after_last_terminator (text : str) (chunk_size overlap start : Z)
    (k fuel : nat) (c : char) (chunks : list str) :
  0 < chunk_size ->
  start + chunk_size < len text ->
  is_terminator c = true ->
  nth_error (slice text start (start + chunk_size)) k = Some c ->
  (forall (j : nat) (c' : char), (k < j)%nat ->
     nth_error (slice text start (start + chunk_size)) j = Some c' ->
     is_terminator c' = false) ->
  int_gt_float (Z.of_nat k) (int_mul_float chunk_size c07) = true ->
  cut_end text chunk_size start = start + Z.of_nat k + 1
  /\ split_loop (S fuel) text chunk_size overlap start chunks
     = split_loop fuel text chunk_size overlap (start + Z.of_nat k + 1 - overlap)
         (chunks ++ [slice text start (start + Z.of_nat k + 1)]).
Proof.
  intros Hcs Hmore Hc Hk Hlast Hgt.
  pose proof (last_sentence_last _ _ _ Hc Hk Hlast) as Hs.
  assert (E : cut_end text chunk_size start = start + Z.of_nat k + 1).
  { unfold cut_end. cbv zeta. rewrite Hs, Hgt. reflexivity. }
  split; [exact E|].
  rewrite split_loop_step, E.
  destruct (Z.ltb_spec start (len text)); [|lia].
  destruct (Z.leb_spec (len text) (start + chunk_size)); [lia|].
  reflexivity.
Qed.

Lemma cut_after_last_terminator_witness :
  cut_end hello 15 0 = 0 + Z.of_nat 11 + 1
  /\ split_loop 1 hello 15 0 0 []
     = split_loop 0 hello 15 0 (0 + Z.of_nat 11 + 1 - 0)
         ([] ++ [slice hello 0 (0 + Z.of_nat 11 + 1)]).
Proof.
  apply (cut_after_last_terminator hello 15 0 0 11 0 chr_dot []);
    try reflexivity; try (vm_compute; reflexivity); try lia.
  intros j c' Hj.
  do 12 (destruct j as [|j]; [lia|]).
  do 3 (destruct j as [|j]; [vm_compute; intros E; injection E as <-; reflexivity|]).
  vm_compute. destruct j; discriminate.
Defined.

(** X2: a window that is not the last one and contains none of [.], [!],
    [?] and no space (a long word, or text in a script that uses
    neither) is appended whole, and the next window starts
    [chunk_size - overlap] characters further. *)
Theorem cut_without_boundary (text : str) (chunk_size overlap start : Z)
    (fuel : nat) (chunks : list str) :
  0 < chunk_size ->
  start + chunk_size < len text ->
  (forall c, In c (slice text start (start + chunk_size)) ->
     is_terminator c = false /\ c <> chr_space) ->
  cut_end text chunk_size start = start + chunk_size
  /\ split_loop (S fuel) text chunk_size overlap start chunks
     = split_loop fuel text chunk_size overlap (start + chunk_size - overlap)
         (chunks ++ [slice text start (start + chunk_size)]).
Proof.
  intros Hcs Hmore Hnone.
  assert (Hs : last_sentence (slice text start (start + chunk_size)) = -1)
    by (apply last_sentence_absent; intros c Hin; apply (Hnone c Hin)).
  assert (Hp : rfind (slice text start (start + chunk_size)) chr_space = -1).
  { apply rfind_absent. intros Hin. destruct (Hnone _ Hin) as [_ Hneq]. congruence. }
  assert (Hno : forall m, 0 < m -> int_gt_float (-1) (int_mul_float chunk_size m) = false).
  { intros m Hm. pose proof (int_mul_float_nonneg chunk_size m Hcs Hm).
    unfold int_gt_float. apply Z.ltb_ge. lia. }
  assert (E : cut_end text chunk_size start = start + chunk_size).
  { unfold cut_end. cbv zeta. rewrite Hs, Hp, !Hno by reflexivity. reflexivity. }
  split; [exact E|].
  rewrite split_loop_step, E.
  destruct (Z.ltb_spec start (len text)); [|lia].
  destruct (Z.leb_spec (len text) (start + chunk_size)); [lia|].
  reflexivity.
Qed.

Lemma cut_without_boundary_witness :
  cut_end alphabet 10 0 = 0 + 10
  /\ split_loop 1 alphabet 10 2 0 []
     = split_loop 0 alphabet 10 2 (0 + 10 - 2) ([] ++ [slice alphabet 0 (0 + 10)]).
Proof.
  apply (cut_without_boundary alphabet 10 2 0 0 []); [lia | vm_compute; reflexivity |].
  intros c Hin. vm_compute in Hin.
  repeat (destruct Hin as [<- | Hin]; [split; [reflexivity | discriminate]|]).
  destruct Hin.
Defined.

(** ** How many segments *)

Lemma returns_fits (text : str) (chunk_size overlap : Z) (chunks : list str) :
  0 < chunk_size -> returns text chunk_size overlap chunks ->
  Forall (fits chunk_size) chunks.
Proof.
  intros Hcs [fuel H]. unfold split_text_into_chunks in H.
  destruct (Z.leb_spec (len text) chunk_size) as [Hle | Hgt].
  - injection H as <-. constructor; [exact Hle | constructor].
  - pose proof (split_loop_fits text chunk_size overlap Hcs fuel 0 [] (Forall_nil _)) as F.
    rewrite H in F. exact F.
Qed.

(** What an advancing configuration returns, and that it gives back the
    text. *)
Lemma advancing_returns (text : str) (chunk_size overlap : Z) :
  advancing chunk_size overlap ->
  exists chunks,
    (forall fuel, (List.length text <= fuel)%nat ->
       split_text_into_chunks fuel text chunk_size overlap = Returned chunks)
    /\ chunks <> []
    /\ reconstruct overlap chunks = text.
Proof.
  intros Hadv. pose proof Hadv as (_ & Hov & _).
  destruct (split_returns text chunk_size overlap Hadv)
    as (chunks & Hret & [[E _] | [Hc _]]); exists chunks.
  - subst chunks. split; [exact Hret|]. split; [discriminate | apply app_nil_r].
  - split; [exact Hret|]. split; [eapply chain_nonempty; eauto|].
    apply chain_reconstruct; [lia | exact Hc].
Qed.

Lemma len_skipn_le (k : nat) (s : str) : len (skipn k s) <= len s.
Proof. unfold len. rewrite length_skipn. lia. Qed.

Lemma len_cores (chunk_size : Z) (k : nat) (l : list str) :
  Forall (fits chunk_size) l ->
  len (concat (map (skipn k) l)) <= Z.of_nat (List.length l) * chunk_size.
Proof.
  induction 1 as [|c l Hc Hl IH]; [reflexivity|].
  cbn [map concat List.length]. rewrite len_app, Nat2Z.inj_succ.
  pose proof (len_skipn_le k c). unfold fits in Hc. lia.
Qed.

Lemma len_reconstruct (chunk_size overlap : Z) (l : list str) :
  Forall (fits chunk_size) l ->
  len (reconstruct overlap l) <= Z.of_nat (List.length l) * chunk_size.
Proof.
  intros H. destruct H as [|c l Hc Hl]; [reflexivity|].
  cbn [reconstruct List.length]. rewrite len_app, Nat2Z.inj_succ.
  pose proof (len_cores chunk_size (Z.to_nat overlap) l Hl).
  unfold fits in Hc. lia.
Qed.

(** X4: for [0 < chunk_size <= 2^53] and
    [0 <= 2 * overlap <= chunk_size], the number of segments announced
    under the text area, [max(1, ceil(len(text) / chunk_size))], is never
    more than the number of segments the splitter returns. *)
Theorem estimate_at_most_actual (text : str) (chunk_size overlap : Z) :
  0 < chunk_size <= 2 ^ 53 ->
  0 <= 2 * overlap <= chunk_size ->
  exists chunks estimate,
    returns text chunk_size overlap chunks
    /\ estimated_chunks text chunk_size = Some estimate
    /\ estimate <= Z.of_nat (List.length chunks).
Proof.
  intros Hcs Hov.
  destruct (advancing_returns text chunk_size overlap (advancing_half _ _ Hcs Hov))
    as (chunks & Hret & Hne & Hrec).
  assert (R : returns text chunk_size overlap chunks)
    by (exists (List.length text); auto).
  pose proof (returns_fits _ _ _ _ (proj1 Hcs) R) as Hfit.
  pose proof (len_reconstruct chunk_size overlap chunks Hfit) as Hlen.
  rewrite Hrec in Hlen.
  exists chunks, (Z.max 1 ((len text + chunk_size - 1) / chunk_size)).
  split; [exact R|]. split.
  - unfold estimated_chunks, floordiv. cbv zeta.
    destruct (Z.eqb_spec chunk_size 0); [lia | reflexivity].
  - assert (1 <= Z.of_nat (List.length chunks))
      by (destruct chunks; [congruence | simpl; lia]).
    assert ((len text + chunk_size - 1) / chunk_size < Z.of_nat (List.length chunks) + 1)
      by (apply Z.div_lt_upper_bound; lia).
    lia.
Qed.

Lemma estimate_at_most_actual_witness :
  exists chunks estimate,
    returns hello 15 0 chunks
    /\ estimated_chunks hello 15 = Some estimate
    /\ estimate <= Z.of_nat (List.length chunks).
Proof. apply (estimate_at_most_actual hello 15 0); lia. Defined.

Lemma float_of_int_upper (n : Z) :
  0 < n -> 2 ^ 53 * float_of_int n <= (2 ^ 53 + 1) * n.
Proof. intros Hn. rewrite float_of_int_pos by lia. apply round53_upper. lia. Qed.

(** Every cut is more than half of [float(chunk_size)] after [start]. *)
Lemma cut_end_half (text : str) (chunk_size start : Z) :
  0 < chunk_size ->
  float_of_int chunk_size < 2 * (cut_end text chunk_size start - start).
Proof.
  intros Hcs.
  destruct (cut_end_cases text chunk_size start) as [(G & E) | [(_ & G & E) | (_ & _ & E)]];
    rewrite E.
  - apply gt_07_half in G; lia.
  - rewrite gt_half in G by lia. apply Z.ltb_lt in G. lia.
  - pose proof (float_of_int_upper chunk_size Hcs) as Hup.
    change (2 ^ 53) with 9007199254740992 in Hup. lia.
Qed.

Lemma split_loop_count (text : str) (chunk_size overlap : Z) :
  advancing chunk_size overlap ->
  forall (fuel : nat) (start : Z) (chunks l : list str),
    start < len text ->
    split_loop fuel text chunk_size overlap start chunks = Returned l ->
    (Z.of_nat (List.length l) - Z.of_nat (List.length chunks) - 1)
      * (float_of_int chunk_size - 2 * overlap)
    < 2 * (len text - start).
Proof.
  intros Hadv. pose proof Hadv as (Hcs & Hov & HR).
  induction fuel as [|fuel IH]; intros start chunks l Hs H.
  - discriminate H.
  - rewrite split_loop_step in H.
    destruct (Z.ltb_spec start (len text)) as [Hlt | Hge]; [|lia].
    destruct (Z.leb_spec (len text) (start + chunk_size)) as [Hlast | Hmore].
    + injection H as <-. rewrite length_app. cbn [List.length].
      replace (Z.of_nat (List.length chunks + 1) - Z.of_nat (List.length chunks) - 1)
        with 0 by lia.
      lia.
    + pose proof (cut_end_range text chunk_size start Hcs) as He.
      pose proof (cut_end_half text chunk_size start Hcs) as Hh.
      set (e := cut_end text chunk_size start) in *.
      apply IH in H; [|lia].
      rewrite length_app in H. cbn [List.length] in H.
      set (D := float_of_int chunk_size - 2 * overlap) in *.
      set (n := Z.of_nat (List.length l)) in *.
      set (a := Z.of_nat (List.length chunks)) in *.
      replace (Z.of_nat (List.length chunks + 1)) with (a + 1) in H by (unfold a; lia).
      replace ((n - a - 1) * D) with ((n - (a + 1) - 1) * D + D) by ring.
      unfold D in *. lia.
Qed.

(** X5: for [0 < chunk_size <= 2^53] and
    [0 <= 2 * overlap <= chunk_size], a call that returns [n] segments
    has [(n - 1) * (chunk_size - 2 * overlap) <= 2 * len(text)]: every
    window but the last moves the start forward by more than
    [chunk_size / 2 - overlap]. *)
Theorem segment_count_bound (text : str) (chunk_size overlap : Z) (chunks : list str) :
  0 < chunk_size <= 2 ^ 53 ->
  0 <= 2 * overlap <= chunk_size ->
  returns text chunk_size overlap chunks ->
  (Z.of_nat (List.length chunks) - 1) * (chunk_size - 2 * overlap) <= 2 * len text.
Proof.
  intros Hcs Hov [fuel H].
  pose proof (advancing_half _ _ Hcs Hov) as Hadv.
  unfold split_text_into_chunks in H.
  destruct (Z.leb_spec (len text) chunk_size) as [Hle | Hgt].
  - injection H as <-. cbn [List.length]. pose proof (len_nonneg text).
    change (Z.of_nat 1 - 1) with 0. lia.
  - pose proof (split_loop_count text chunk_size overlap Hadv fuel 0 [] chunks) as B.
    rewrite float_of_int_small in B by lia. cbn [List.length] in B.
    assert (Hpos : 0 < len text) by lia.
    specialize (B Hpos H). change (Z.of_nat 0) with 0 in B. lia.
Qed.

Lemma segment_count_bound_witness :
  (Z.of_nat (List.length [lit "Hello world."; lit " This is a"; lit " test!"]) - 1)
    * (15 - 2 * 0) <= 2 * len hello.
Proof.
  apply (segment_count_bound hello 15 0); [lia | lia | exists 3%nat; reflexivity].
Defined.

(** ** An overlap that is not below the window *)

Lemma split_loop_stuck (text : str) (chunk_size overlap : Z) :
  0 < chunk_size -> chunk_size <= overlap -> chunk_size < len text ->
  forall (fuel : nat) (start : Z) (chunks : list str),
    start <= 0 ->
    exists start' chunks',
      split_loop fuel text chunk_size overlap start chunks = Running start' chunks'.
Proof.
  intros Hcs Hov Hlen. induction fuel as [|fuel IH]; intros start chunks Hs.
  - eauto.
  - rewrite split_loop_step.
    destruct (Z.ltb_spec start (len text)) as [Hlt | Hge]; [|lia].
    destruct (Z.leb_spec (len text) (start + chunk_size)) as [Hlast | Hmore]; [lia|].
    pose proof (cut_end_range text chunk_size start Hcs) as He.
    apply IH. lia.
Qed.

(** X6: when [overlap >= chunk_size > 0], the splitter never returns on
    a text longer than [chunk_size]: no cut is further than [chunk_size]
    from [start], so [start] never moves forward. *)
Theorem split_diverges_when_overlap_not_below (text : str) (chunk_size overlap : Z) :
  0 < chunk_size -> chunk_size <= overlap -> chunk_size < len text ->
  diverges text chunk_size overlap.
Proof.
  intros Hcs Hov Hlen fuel. unfold split_text_into_chunks.
  destruct (Z.leb_spec (len text) chunk_size); [lia|].
  apply split_loop_stuck; try assumption. lia.
Qed.

Lemma split_diverges_when_overlap_not_below_witness : diverges alphabet 10 10.
Proof.
  apply (split_diverges_when_overlap_not_below alphabet 10 10);
    [lia | lia | vm_compute; reflexivity].
Defined.

(** ** The client *)

(** X11: [init_cohere_client] returns a client for [key] exactly when
    [key] is not empty and is either the value of the secret, or the
    value of the environment variable while the secrets lookup raised
    [KeyError] or [FileNotFoundError]; in every other case it shows the
    one error message and stops.  A secret that is present but empty
    stops the page even when the environment variable is set. *)
Theorem client_needs_nonempty_key (secret : secret_lookup) (getenv : option str)
    (key : str) :
  (init_cohere_client secret getenv = ClientV2 key
   <-> key <> []
       /\ (secret = SecretValue key
           \/ (secret = SecretKeyError \/ secret = SecretFileNotFound)
              /\ getenv = Some key))
  /\ (forall error, init_cohere_client secret getenv = Stopped error ->
        error = missing_key_message)
  /\ (secret = SecretValue [] ->
      init_cohere_client secret getenv = Stopped missing_key_message).
Proof.
  split; [|split].
  - unfold init_cohere_client. split.
    + intros H. destruct secret as [v | |]; [| destruct getenv as [v|] ..];
        try discriminate H;
        (destruct v as [|x v]; simpl in H; [discriminate H|]; injection H as <-;
         split; [discriminate | auto]).
    + intros (Hne & [-> | [[-> | ->] ->]]);
        destruct key; simpl; congruence.
  - intros error H. unfold init_cohere_client in H.
    destruct secret as [v | |]; [| destruct getenv as [v|] ..];
      try (injection H as <-; reflexivity);
      (destruct v; simpl in H; [injection H as <-; reflexivity | discriminate H]).
  - intros ->. reflexivity.
Qed.

Lemma client_needs_nonempty_key_witness :
  init_cohere_client (SecretValue []) (Some (lit "k3y")) = Stopped missing_key_message.
Proof.
  apply (proj2 (proj2 (client_needs_nonempty_key (SecretValue []) (Some (lit "k3y")) []))).
  reflexivity.
Defined.

(** ** The page *)

Lemma str_eqb_eq (a b : str) : str_eqb a b = true <-> a = b.
Proof.
  unfold str_eqb. destruct (list_eq_dec N.eq_dec a b); split; congruence.
Qed.

Lemma in_skipn_in (k : nat) (s : str) (x : char) : In x (skipn k s) -> In x s.
Proof.
  intros H. rewrite <- (firstn_skipn k s). apply in_or_app. right. exact H.
Qed.

(** A character of the reconstruction is a character of some chunk. *)
Lemma reconstruct_in (overlap : Z) (l : list str) (x : char) :
  In x (reconstruct overlap l) -> exists c, In c l /\ In x c.
Proof.
  destruct l as [|first rest]; simpl; [intros []|].
  intros H. apply in_app_or in H. destruct H as [H | H].
  - exists first. auto.
  - apply in_concat in H. destruct H as (t & Ht & Hx).
    apply in_map_iff in Ht. destruct Ht as (c & <- & Hc).
    exists c. split; [auto | eapply in_skipn_in; eauto].
Qed.

(** The sliders only give advancing configurations. *)
Lemma sliders_advancing (chunk_size overlap : Z) :
  chunk_size_slider chunk_size = true ->
  chunk_overlap_slider chunk_size overlap = true ->
  advancing chunk_size overlap.
Proof.
  unfold chunk_size_slider, chunk_overlap_slider, on_slider.
  intros Hcs Hov.
  apply andb_true_iff in Hcs. destruct Hcs as [Hcs _].
  apply andb_true_iff in Hcs. destruct Hcs as [Hlo Hhi].
  apply andb_true_iff in Hov. destruct Hov as [Hov _].
  apply andb_true_iff in Hov. destruct Hov as [Holo Hohi].
  apply Z.leb_le in Hlo, Hhi, Holo, Hohi.
  assert (4 * (chunk_size / 4) <= chunk_size) by (apply Z.mul_div_le; lia).
  apply advancing_quarter; lia.
Qed.

Lemma nonblank_indices_bounds (chunks : list str) :
  forall i, Forall (fun j => (i <= j < i + List.length chunks)%nat)
              (nonblank_indices i chunks).
Proof.
  induction chunks as [|c rest IH]; intros i; simpl; [constructor|].
  assert (F : Forall (fun j => (i <= j < i + S (List.length rest))%nat)
                (nonblank_indices (S i) rest)).
  { eapply Forall_impl; [|apply IH]. simpl. intros j Hj. lia. }
  destruct (nonblank c); [constructor; [lia | exact F] | exact F].
Qed.

Lemma nonblank_indices_sorted (chunks : list str) :
  forall i, StronglySorted lt (nonblank_indices i chunks).
Proof.
  induction chunks as [|c rest IH]; intros i; simpl; [constructor|].
  destruct (nonblank c); [|apply IH].
  constructor; [apply IH|].
  eapply Forall_impl; [|apply nonblank_indices_bounds]. simpl. intros j Hj. lia.
Qed.

Section PageProperties.

Variables (temp client : Type).
Variable chat : client -> chat_request temp -> chat_result * client.

Lemma translate_chunk_context (text target_lang source_lang : str)
    (temperature : temp) (context : str) (w : world temp client) :
  translate_chunk chat text target_lang source_lang temperature (strip context) w
  = translate_chunk chat text target_lang source_lang temperature context w.
Proof.
  unfold translate_chunk, request, system_prompt.
  rewrite strip_idempotent. reflexivity.
Qed.

Lemma translate_loop_context (target_lang source_lang : str) (temperature : temp)
    (context : str) (total : nat) (chunks : list str) :
  forall (i : nat) (translated : list str) (w : world temp client),
    translate_loop chat target_lang source_lang temperature (strip context)
      total i chunks translated w
    = translate_loop chat target_lang source_lang temperature context
        total i chunks translated w.
Proof.
  induction chunks as [|c rest IH]; intros i translated w; simpl; [reflexivity|].
  unfold bind, loop_body.
  destruct (truthy (strip c)).
  - unfold bind, emit. rewrite translate_chunk_context.
    destruct (translate_chunk chat c target_lang source_lang temperature context _)
      as [t w']. simpl. apply IH.
  - unfold ret. apply IH.
Qed.

(** X12: the run depends on the context only through
    [context_text.strip()]: with the stripped context in place of the
    context, pressing the button gives the same result, the same calls
    and the same page. *)
Theorem context_is_used_stripped (fuel : nat) (input_text context_text : str)
    (source_lang target_lang : str) (chunk_size chunk_overlap : Z)
    (temperature : temp) (w : world temp client) :
  translate_clicked chat fuel input_text (strip context_text) source_lang target_lang
    chunk_size chunk_overlap temperature w
  = translate_clicked chat fuel input_text context_text source_lang target_lang
      chunk_size chunk_overlap temperature w.
Proof.
  unfold translate_clicked. rewrite strip_idempotent.
  destruct (negb (truthy (strip input_text))); [reflexivity|].
  destruct (negb (truthy (strip context_text))); [reflexivity|].
  destruct (str_eqb source_lang target_lang); [reflexivity|].
  destruct (split_text_into_chunks fuel input_text chunk_size chunk_overlap);
    [|reflexivity].
  unfold bind, translate_chunks, bind. rewrite translate_loop_context. reflexivity.
Qed.

(** X7: pressing the button gives a warning exactly when the text is
    blank, or the context is blank, or the two languages are the same,
    with the message of the first of these that holds; in that case
    nothing is sent to the service and nothing else is shown. *)
Theorem validation_warns (fuel : nat) (input_text context_text : str)
    (source_lang target_lang : str) (chunk_size chunk_overlap : Z)
    (temperature : temp) (w : world temp client) :
  let r := translate_clicked chat fuel input_text context_text source_lang
             target_lang chunk_size chunk_overlap temperature w in
  (nonblank input_text = false -> r = (Warning warn_no_text, w))
  /\ (nonblank input_text = true -> nonblank context_text = false ->
      r = (Warning warn_no_context, w))
  /\ (nonblank input_text = true -> nonblank context_text = true ->
      source_lang = target_lang -> r = (Warning warn_same_language, w))
  /\ ((exists msg, fst r = Warning msg) ->
      nonblank input_text = false \/ nonblank context_text = false
      \/ source_lang = target_lang).
Proof.
  cbv zeta. unfold translate_clicked, nonblank.
  destruct (truthy (strip input_text)); simpl.
  2: { repeat split; auto; discriminate. }
  destruct (truthy (strip context_text)); simpl.
  2: { repeat split; auto; discriminate. }
  destruct (str_eqb source_lang target_lang) eqn:E.
  - apply str_eqb_eq in E. repeat split; auto; discriminate.
  - assert (Hne : source_lang <> target_lang).
    { intros Heq. apply str_eqb_eq in Heq. congruence. }
    repeat split; try discriminate; try (intros; congruence).
    intros [msg H].
    destruct (split_text_into_chunks fuel input_text chunk_size chunk_overlap);
      unfold bind, ret in H; simpl in H.
    + destruct (translate_chunks _ _ _ _ _ _ _) in H. discriminate H.
    + discriminate H.
Qed.

End PageProperties.

Lemma validation_warns_witness :
  translate_clicked sample_chat 5 hello sample_context fr fr 15 0 tt sample_world
  = (Warning warn_same_language, sample_world).
Proof.
  apply (proj1 (proj2 (proj2 (validation_warns unit nat sample_chat 5 hello sample_context
                                fr fr 15 0 tt sample_world))));
    reflexivity.
Defined.

(** ** Whole runs *)

Lemma shown_errors_length (outs : list chat_result) :
  (List.length (flat_map shown_error outs) <= List.length outs)%nat.
Proof.
  induction outs as [|o outs IH]; simpl; [lia|].
  rewrite length_app. destruct o; simpl; lia.
Qed.

Lemma reports_sorted (total : nat) (l : list nat) :
  StronglySorted lt l ->
  StronglySorted (fun p q : nat * nat => (fst p < fst q)%nat)
    (map (fun i => (i + 1, total)%nat) l).
Proof.
  induction 1 as [|i l Hs IH Hall]; simpl; constructor; [exact IH|].
  apply Forall_map. eapply Forall_impl; [|exact Hall]. simpl. intros j Hj. lia.
Qed.

Section RunProperties.

Variables (temp client : Type).
Variable chat : client -> chat_request temp -> chat_result * client.
Variables (target_lang source_lang : str) (temperature : temp) (context_text : str).

(** X9: the number stored as [chunks_processed] is the number of segments
    that are not blank, which is the number of calls made to the
    service, whether they answered or raised; it is at most the number of
    segments, and the number of errors shown is at most that number. *)
Theorem processed_counts_calls (chunks : list str) (w : world temp client) :
  let r := translate_chunks chat target_lang source_lang temperature context_text
             chunks w in
  snd (fst r) = List.length (filter nonblank chunks)
  /\ List.length (chat_calls (ui (snd r)))
     = (List.length (chat_calls (ui w)) + snd (fst r))%nat
  /\ (snd (fst r) <= List.length chunks)%nat
  /\ (List.length (errors_shown (ui (snd r)))
      <= List.length (errors_shown (ui w)) + snd (fst r))%nat.
Proof.
  cbv zeta. rewrite translate_chunks_loop. cbn [fst snd].
  rewrite loop_result, loop_calls, loop_errors. cbn [app].
  rewrite !length_app, !length_map, chat_trace_length, !length_map.
  split; [reflexivity|]. split; [reflexivity|]. split; [apply filter_length_le|].
  pose proof (shown_errors_length
                (chat_trace chat (svc w)
                   (map (fun c => request c target_lang source_lang temperature context_text)
                      (filter nonblank chunks)))) as H.
  rewrite chat_trace_length, length_map in H. lia.
Qed.

(** X10: the fractions reported during a run have a numerator between 1
    and the denominator, which is the number of segments, and the
    numerators increase strictly: the progress bar never receives a
    value outside (0, 1] and never goes back. *)
Theorem progress_increases_within_bounds (chunks : list str) (w : world temp client) :
  exists reports,
    progress_reports
      (ui (snd (translate_loop chat target_lang source_lang temperature context_text
                  (List.length chunks) 0 chunks [] w)))
    = progress_reports (ui w) ++ reports
    /\ Forall (fun p : nat * nat =>
                 (0 < fst p <= snd p)%nat /\ snd p = List.length chunks) reports
    /\ StronglySorted (fun p q : nat * nat => (fst p < fst q)%nat) reports.
Proof.
  exists (map (fun i => (i + 1, List.length chunks)%nat) (nonblank_indices 0 chunks)).
  split; [apply loop_progress|]. split.
  - apply Forall_map. eapply Forall_impl; [|apply nonblank_indices_bounds].
    simpl. intros j Hj. lia.
  - apply reports_sorted, nonblank_indices_sorted.
Qed.

(** X8: a request that passes the checks (text and context not blank,
    two different languages), with values the two sliders can give and
    at least [len(text)] loop iterations allowed to the splitter, is
    translated: the splitter returns, at least one segment is sent, every
    text sent is a segment, not blank and at most [chunk_size] characters
    long, the translation is the results joined with one space, and
    [chunks_processed] is the number of texts sent. *)
Theorem valid_request_is_translated (fuel : nat) (input_text : str)
    (chunk_size chunk_overlap : Z) (w : world temp client) :
  nonblank input_text = true ->
  nonblank context_text = true ->
  source_lang <> target_lang ->
  chunk_size_slider chunk_size = true ->
  chunk_overlap_slider chunk_size chunk_overlap = true ->
  (List.length input_text <= fuel)%nat ->
  exists chunks,
    let r := translate_clicked chat fuel input_text context_text source_lang
               target_lang chunk_size chunk_overlap temperature w in
    let sent := filter nonblank chunks in
    returns input_text chunk_size chunk_overlap chunks
    /\ fst r
       = Translated
           (join (lit " ")
              (map result_text
                 (chat_trace chat (svc w)
                    (map (fun c => request c target_lang source_lang temperature
                                     context_text) sent))))
           (List.length sent)
    /\ submitted (ui (snd r)) = submitted (ui w) ++ sent
    /\ (1 <= List.length sent)%nat
    /\ Forall (fun t => nonblank t = true /\ len t <= chunk_size) sent.
Proof.
  intros Hin Hctx Hlang Hcs Hov Hfuel.
  pose proof (sliders_advancing _ _ Hcs Hov) as Hadv.
  destruct (advancing_returns input_text chunk_size chunk_overlap Hadv)
    as (chunks & Hret & Hne & Hrec).
  assert (R : returns input_text chunk_size chunk_overlap chunks)
    by (exists (List.length input_text); auto).
  exists chunks. cbv zeta. split; [exact R|].
  assert (E : translate_clicked chat fuel input_text context_text source_lang
                target_lang chunk_size chunk_overlap temperature w
              = (Translated
                   (fst (fst (translate_chunks chat target_lang source_lang temperature
                                context_text chunks w)))
                   (snd (fst (translate_chunks chat target_lang source_lang temperature
                                context_text chunks w))),
                 snd (translate_chunks chat target_lang source_lang temperature
                        context_text chunks w))).
  { unfold translate_clicked. unfold nonblank in Hin, Hctx. rewrite Hin, Hctx. simpl.
    destruct (str_eqb source_lang target_lang) eqn:Eq;
      [apply str_eqb_eq in Eq; contradiction|].
    rewrite (Hret fuel Hfuel). unfold bind, ret.
    destruct (translate_chunks chat target_lang source_lang temperature context_text
                chunks w) as [[full n] w']. reflexivity. }
  rewrite E. cbn [fst snd]. rewrite translate_chunks_loop. cbn [fst snd].
  rewrite loop_result. cbn [app]. rewrite length_map, chat_trace_length, length_map.
  split; [reflexivity|]. split.
  { unfold submitted. rewrite loop_calls, map_app, map_map.
    f_equal. rewrite <- (map_id (filter nonblank chunks)) at 2.
    apply map_ext. intros c. apply user_text_request. }
  split.
  - apply nonblank_true in Hin. destruct Hin as (x & Hx & Hsp).
    rewrite <- Hrec in Hx. apply reconstruct_in in Hx. destruct Hx as (c & Hc & Hxc).
    assert (Hnb : nonblank c = true) by (apply nonblank_true; eauto).
    assert (Hf : In c (filter nonblank chunks)) by (apply filter_In; auto).
    destruct (filter nonblank chunks); [destruct Hf | simpl; lia].
  - destruct Hadv as (Hpos & _).
    pose proof (returns_fits _ _ _ _ Hpos R) as Hfit.
    apply Forall_forall. intros t Ht. apply filter_In in Ht. destruct Ht as [Ht Hnb].
    split; [exact Hnb|]. rewrite Forall_forall in Hfit. apply (Hfit t Ht).
Qed.

End RunProperties.

Lemma valid_request_is_translated_witness :
  exists chunks,
    let r := translate_clicked sample_chat 2100 (lit "Bonjour.") sample_context fr en
               2000 50 tt sample_world in
    let sent := filter nonblank chunks in
    returns (lit "Bonjour.") 2000 50 chunks
    /\ fst r
       = Translated
           (join (lit " ")
              (map result_text
                 (chat_trace sample_chat (svc sample_world)
                    (map (fun c => request c en fr tt sample_context) sent))))
           (List.length sent)
    /\ submitted (ui (snd r)) = submitted (ui sample_world) ++ sent
    /\ (1 <= List.length sent)%nat
    /\ Forall (fun t => nonblank t = true /\ len t <= 2000) sent.
Proof.
  apply (valid_request_is_translated unit nat sample_chat en fr tt sample_context
           2100 (lit "Bonjour.") 2000 50 sample_world);
    try reflexivity; try discriminate.
  vm_compute. lia.
Defined.

(** ** Text without a sentence end or a space *)

Lemma in_slice_in (s : str) (lo hi : Z) (x : char) : In x (slice s lo hi) -> In x s.
Proof.
  unfold slice. intros H.
  apply (in_skipn_in (Z.to_nat (clamp (len s) lo))).
  rewrite <- (firstn_skipn (Z.to_nat (clamp (len s) hi - clamp (len s) lo))
                (skipn (Z.to_nat (clamp (len s) lo)) s)).
  apply in_or_app. left. exact H.
Qed.

(** A slice that reaches the end of the string is the slice without an
    upper bound. *)
Lemma slice_to_end (s : str) (lo hi : Z) :
  0 <= lo -> len s <= hi -> slice s lo hi = slice_from s lo.
Proof.
  intros Hlo Hhi. unfold slice, slice_from.
  apply firstn_all2. rewrite length_skipn.
  pose proof (clamp_range (len s) lo (len_nonneg s)).
  assert (clamp (len s) hi = len s) by (unfold clamp; destruct (Z.ltb_spec hi 0); lia).
  unfold len in *. lia.
Qed.

Lemma windows_succ (text : str) (chunk_size overlap start : Z) (n : nat) :
  windows text chunk_size overlap start (S n)
  = slice text start (start + chunk_size)
      :: windows text chunk_size overlap (start + chunk_size - overlap) n.
Proof.
  unfold windows. cbn [seq map]. f_equal.
  - f_equal; lia.
  - rewrite <- seq_shift, map_map. apply map_ext. intros i.
    f_equal; lia.
Qed.

Lemma cut_end_plain (text : str) (chunk_size start : Z) :
  0 < chunk_size ->
  (forall c, In c text -> is_terminator c = false /\ c <> chr_space) ->
  cut_end text chunk_size start = start + chunk_size.
Proof.
  intros Hcs Hnone.
  assert (Hw : forall c, In c (slice text start (start + chunk_size)) ->
                 is_terminator c = false /\ c <> chr_space)
    by (intros c Hin; apply Hnone; eapply in_slice_in; eauto).
  assert (Hs : last_sentence (slice text start (start + chunk_size)) = -1)
    by (apply last_sentence_absent; intros c Hin; apply (Hw c Hin)).
  assert (Hp : rfind (slice text start (start + chunk_size)) chr_space = -1).
  { apply rfind_absent. intros Hin. destruct (Hw _ Hin) as [_ Hneq]. congruence. }
  assert (Hno : forall m, 0 < m -> int_gt_float (-1) (int_mul_float chunk_size m) = false).
  { intros m Hm. pose proof (int_mul_float_nonneg chunk_size m Hcs Hm).
    unfold int_gt_float. apply Z.ltb_ge. lia. }
  unfold cut_end. cbv zeta. rewrite Hs, Hp, !Hno by reflexivity. reflexivity.
Qed.

Lemma split_loop_windows (text : str) (chunk_size overlap : Z) :
  0 < chunk_size -> 0 <= overlap < chunk_size ->
  (forall c, In c text -> is_terminator c = false /\ c <> chr_space) ->
  forall (fuel : nat) (start : Z) (chunks : list str),
    0 <= start < len text -> len text - start <= Z.of_nat fuel ->
    exists n,
      (1 <= n)%nat
      /\ split_loop fuel text chunk_size overlap start chunks
         = Returned (chunks ++ windows text chunk_size overlap start n).
Proof.
  intros Hcs Hov Hnone.
  induction fuel as [|fuel IH]; intros start chunks Hs Hfuel.
  - lia.
  - rewrite split_loop_step.
    destruct (Z.ltb_spec start (len text)) as [Hlt | Hge]; [|lia].
    destruct (Z.leb_spec (len text) (start + chunk_size)) as [Hlast | Hmore].
    + exists 1%nat. split; [lia|].
      rewrite windows_succ. unfold windows at 1. cbn [seq map].
      rewrite slice_to_end by lia. reflexivity.
    + rewrite (cut_end_plain text chunk_size start Hcs Hnone).
      destruct (IH (start + chunk_size - overlap)
                  (chunks ++ [slice text start (start + chunk_size)]))
        as (n & Hn & E); try lia.
      exists (S n). split; [lia|].
      rewrite E, windows_succ, <- app_assoc. reflexivity.
Qed.

(** X13: a text none of whose characters is [.], [!], [?] or a space is
    cut with a fixed stride, for every [chunk_size > 0] and every
    [overlap] with [0 <= overlap < chunk_size]: the splitter returns,
    within [len(text)] iterations, the windows
    [text[i * (chunk_size - overlap) : i * (chunk_size - overlap) + chunk_size]]
    for [i = 0 .. n - 1], with [n >= 1]. *)
Theorem boundary_free_text_fixed_stride (text : str) (chunk_size overlap : Z) :
  0 < chunk_size -> 0 <= overlap < chunk_size ->
  (forall c, In c text -> is_terminator c = false /\ c <> chr_space) ->
  exists n,
    (1 <= n)%nat
    /\ forall fuel, (List.length text <= fuel)%nat ->
         split_text_into_chunks fuel text chunk_size overlap
         = Returned (windows text chunk_size overlap 0 n).
Proof.
  intros Hcs Hov Hnone. unfold split_text_into_chunks.
  destruct (Z.leb_spec (len text) chunk_size) as [Hle | Hgt].
  - exists 1%nat. split; [lia|]. intros fuel _.
    unfold windows. cbn [seq map]. rewrite slice_to_end by lia.
    unfold slice_from. rewrite clamp_inside by (pose proof (len_nonneg text); lia).
    reflexivity.
  - destruct (split_loop_windows text chunk_size overlap Hcs Hov Hnone
                (List.length text) 0 [])
      as (n & Hn & E); try (unfold len in *; lia).
    exists n. split; [exact Hn|]. intros fuel Hfuel.
    eapply split_loop_more; eauto.
Qed.

Lemma boundary_free_text_fixed_stride_witness :
  exists n,
    (1 <= n)%nat
    /\ forall fuel, (List.length alphabet <= fuel)%nat ->
         split_text_into_chunks fuel alphabet 10 7 = Returned (windows alphabet 10 7 0 n).
Proof.
  apply (boundary_free_text_fixed_stride alphabet 10 7); [lia | lia |].
  intros c Hin. vm_compute in Hin.
  repeat (destruct Hin as [<- | Hin]; [split; [reflexivity | discriminate]|]).
  destruct Hin.
Defined.
